(** * TodoApp: the service and the controller of 02AfterSPA/Scripts/app.ts

    A shallow embedding of [TodoService] and [TodoController] together with
    the part of the browser they run against: the [$http] requests in
    flight, the variables captured by closures, the alerts shown.  A
    JavaScript turn runs to completion, so each handler of the source is one
    function on [World] and the event loop is a step function over the
    events the user and the network can raise. *)

From stdpp Require Import base option list gmap strings pretty.

Open Scope string_scope.
Open Scope list_scope.
Open Scope Z_scope.

(** ** Data model *)

(** [interface ITodoFilter]: sent down for sorting and filtering on the
    server. *)
Record ITodoFilter : Type := mkFilter {
  filterText : string;
  columnName : string;
  sortAscending : bool
}.

(** [interface ITodoItem]: the fields come back Pascal case.  [Id] is a
    JavaScript number holding an integer key, below [2^53] in absolute
    value, where every integer is a number and prints in plain decimal;
    nothing proved here depends on the digits. *)
Record ITodoItem : Type := mkItem {
  Id : Z;
  IsDone : bool;
  Description : string;
  DueDate : string
}.

(** [enum Columns].  TypeScript compiles an enum to an object that maps each
    member to its number and each number back to the member's name. *)
Module Columns.

Inductive t : Type := Id | Completed | Description | DueDate.

Definition value (c : t) : Z :=
  match c with
  | Id => 0
  | Completed => 1
  | Description => 2
  | DueDate => 3
  end.

(** [Columns[n]], the reverse mapping; [None] is the undefined of
    JavaScript. *)
Definition name_of (n : Z) : option string :=
  if n =? 0 then Some "Id"
  else if n =? 1 then Some "Completed"
  else if n =? 2 then Some "Description"
  else if n =? 3 then Some "DueDate"
  else None.

(** [Columns[Columns.c]]. *)
Definition name (c : t) : string :=
  default "undefined" (name_of (value c)).

End Columns.

(** ** JavaScript values

    What a promise is settled with is a JavaScript value whatever the
    TypeScript annotation says; [JsValue] is the common shape in which the
    values of this program are compared and serialized. *)

#[warnings="-register-all"]
Inductive JsValue : Type :=
| JsUndefined
| JsBoolean (b : bool)
| JsNumber (n : Z)
| JsString (s : string)
| JsArray (elements : list JsValue)
| JsObject (properties : list (string * JsValue)).

Class ToJs (A : Type) : Type := to_js : A -> JsValue.
Arguments to_js {A _} _ : simpl never.

#[export] Instance bool_to_js : ToJs bool := JsBoolean.
#[export] Instance Z_to_js : ToJs Z := JsNumber.
#[export] Instance string_to_js : ToJs string := JsString.
#[export] Instance unit_to_js : ToJs unit := fun _ => JsUndefined.
#[export] Instance list_to_js {A} `{ToJs A} : ToJs (list A) :=
  fun l => JsArray (map to_js l).

#[export] Instance ITodoFilter_to_js : ToJs ITodoFilter := fun f =>
  JsObject [("filterText", to_js (filterText f));
            ("columnName", to_js (columnName f));
            ("sortAscending", to_js (sortAscending f))].

#[export] Instance ITodoItem_to_js : ToJs ITodoItem := fun i =>
  JsObject [("Id", to_js (Id i));
            ("IsDone", to_js (IsDone i));
            ("Description", to_js (Description i));
            ("DueDate", to_js (DueDate i))].

(** *** [JSON.stringify] *)

Module JSON.

Definition char (n : nat) : string := String (Ascii.ascii_of_nat n) "".

Definition hex_digit (n : nat) : string :=
  char (if (n <? 10)%nat then 48 + n else 87 + n)%nat.

(** One code unit of a quoted string: the two-character escapes, a
    [\u00xx] escape for the other control characters, else the
    character. *)
Definition quote_char (a : Ascii.ascii) : string :=
  let n := Ascii.nat_of_ascii a in
  if (n =? 8)%nat then char 92 +:+ "b"
  else if (n =? 9)%nat then char 92 +:+ "t"
  else if (n =? 10)%nat then char 92 +:+ "n"
  else if (n =? 12)%nat then char 92 +:+ "f"
  else if (n =? 13)%nat then char 92 +:+ "r"
  else if (n =? 34)%nat then char 92 +:+ char 34
  else if (n =? 92)%nat then char 92 +:+ char 92
  else if (n <? 32)%nat
    then char 92 +:+ "u00" +:+ hex_digit (n / 16) +:+ hex_digit (n mod 16)
  else String a "".

Fixpoint quote_chars (s : string) : string :=
  match s with
  | EmptyString => ""
  | String a s' => quote_char a +:+ quote_chars s'
  end.

Definition quote (s : string) : string :=
  char 34 +:+ quote_chars s +:+ char 34.

Definition join (sep : string) (parts : list string) : string :=
  match parts with
  | [] => ""
  | p :: ps => fold_left (fun acc q => acc +:+ sep +:+ q) ps p
  end.

(** [None] is undefined: an undefined element of an array is written
    null, a property whose value is undefined is left out. *)
Fixpoint stringify_value (v : JsValue) : option string :=
  match v with
  | JsUndefined => None
  | JsBoolean b => Some (if b then "true" else "false")
  | JsNumber n => Some (pretty n)
  | JsString s => Some (quote s)
  | JsArray l =>
      Some ("[" +:+
            join "," (map (fun e => default "null" (stringify_value e)) l)
            +:+ "]")
  | JsObject ps =>
      Some ("{" +:+
            join "," (omap (fun p =>
                        match stringify_value (snd p) with
                        | Some s => Some (quote (fst p) +:+ ":" +:+ s)
                        | None => None
                        end) ps)
            +:+ "}")
  end.

Definition stringify {A} `{ToJs A} (a : A) : string :=
  default "undefined" (stringify_value (to_js a)).

End JSON.

(** ** The browser: [$http], promises, closures, [alert] *)

(** The response object of [$http] (its [headers] and [config] are not read
    by this program and are left out). *)
Record HttpResponse (A : Type) : Type := mkResponse {
  data : A;
  status : Z;
  statusText : string
}.
Arguments mkResponse {A} _ _ _.
Arguments data {A} _.
Arguments status {A} _.
Arguments statusText {A} _.

#[export] Instance HttpResponse_to_js {A} `{ToJs A} : ToJs (HttpResponse A) :=
  fun r =>
    JsObject [("data", to_js (data r));
              ("status", to_js (status r));
              ("statusText", to_js (statusText r))].

(** What [$http] rejects with: the response of a request that failed. *)
Definition HttpError : Type := HttpResponse string.

(** A settled promise. *)
Inductive Settled (A E : Type) : Type :=
| Resolved (value : A)
| Rejected (reason : E).
Arguments Resolved {A E} _.
Arguments Rejected {A E} _.

Inductive HttpRequest : Type :=
| HttpGet (url : string) (params : ITodoFilter)
| HttpPost (url : string) (body : string)
| HttpDelete (url : string).

(** How the server can answer each kind of request, typed as the service
    declares its results. *)
Inductive HttpOutcome : Type :=
| GetOutcome (r : Settled (HttpResponse (list ITodoItem)) HttpError)
| PostOutcome (r : Settled (HttpResponse ITodoItem) HttpError)
| DeleteOutcome (r : Settled (HttpResponse string) HttpError).

(** The pairs of handlers the controller passes to [then], as closures:
    [checkCount] captures the variable [count] of the call of
    [removeCompleted] that made it. *)
Inductive Handlers : Type :=
| refresh_handlers
| update_handlers
| checkCount_handlers (count : nat).

(** The fields of [TodoController]. *)
Record TodoController : Type := mkController {
  filter : ITodoFilter;
  items : list ITodoItem;
  loading : bool
}.

Record World : Type := mkWorld {
  this : TodoController;
  (** the [count] variable of each call of [removeCompleted], shared by the
      closures that captured it *)
  count_vars : list Z;
  (** the requests not yet answered, with the handlers waiting on the
      promise of the service *)
  in_flight : gmap nat (HttpRequest * Handlers);
  next_request : nat;
  (** every request sent, oldest first *)
  sent : list HttpRequest;
  (** every [alert] shown, oldest first *)
  alerts : list HttpError
}.

Definition set_this (c : TodoController) (w : World) : World :=
  mkWorld c (count_vars w) (in_flight w) (next_request w) (sent w) (alerts w).

Definition set_filter (f : ITodoFilter) (w : World) : World :=
  set_this (mkController f (items (this w)) (loading (this w))) w.

Definition set_items (l : list ITodoItem) (w : World) : World :=
  set_this (mkController (filter (this w)) l (loading (this w))) w.

Definition set_loading (b : bool) (w : World) : World :=
  set_this (mkController (filter (this w)) (items (this w)) b) w.

Definition alert (err : HttpError) (w : World) : World :=
  mkWorld (this w) (count_vars w) (in_flight w) (next_request w) (sent w)
          (alerts w ++ [err]).

(** [var count = v]: a new variable. *)
Definition new_var (v : Z) (w : World) : nat * World :=
  (length (count_vars w),
   mkWorld (this w) (count_vars w ++ [v]) (in_flight w) (next_request w)
           (sent w) (alerts w)).

Definition read_var (x : nat) (w : World) : Z := default 0 (count_vars w !! x).

Definition write_var (x : nat) (v : Z) (w : World) : World :=
  mkWorld (this w) (<[x := v]> (count_vars w)) (in_flight w) (next_request w)
          (sent w) (alerts w).

(** A request leaves; the handlers wait for its answer.  [$http] never
    settles a promise in the turn that made the request.  It is handed the
    filter object itself and reads it when the turn ends: every handler of
    the controller calls [refresh] once, as its last statement, so within a
    run of turns the parameters sent are the filter as it is at the call.
    Two calls made by hand in one turn would both send the filter the
    second leaves. *)
Definition http (req : HttpRequest) (h : Handlers) (w : World) : World :=
  mkWorld (this w) (count_vars w)
          (<[next_request w := (req, h)]> (in_flight w))
          (S (next_request w)) (sent w ++ [req]) (alerts w).

(** The answer of request [id] has arrived. *)
Definition answered (id : nat) (w : World) : World :=
  mkWorld (this w) (count_vars w) (delete id (in_flight w)) (next_request w)
          (sent w) (alerts w).

(** [p.then(onFulfilled, onRejected)] once [p] is settled. *)
Definition then_ {A E} (p : Settled A E) (onFulfilled : A -> World -> World)
    (onRejected : E -> World -> World) : World -> World :=
  match p with
  | Resolved value => onFulfilled value
  | Rejected reason => onRejected reason
  end.

(** [angular.forEach] over an array. *)
Definition forEach {A} (l : list A) (iterator : A -> World -> World)
    (w : World) : World :=
  fold_left (fun w a => iterator a w) l w.

(** ** [class TodoService]

    Each method makes a deferred, sends one request and returns the promise
    of the deferred, on which the caller at once attaches its handlers [h];
    [m_settled] is the pair of callbacks the method gave to [$http], from
    the outcome of the request to the settlement of the promise. *)
Module TodoService.

Definition getItems (filter : ITodoFilter) (h : Handlers) : World -> World :=
  http (HttpGet "/api/todo" filter) h.

Definition getItems_settled
    (r : Settled (HttpResponse (list ITodoItem)) HttpError)
  : Settled (list ITodoItem) HttpError :=
  match r with
  | Resolved result => let list := data result in Resolved list
  | Rejected err => Rejected err
  end.

Definition updateItem (item : ITodoItem) (h : Handlers) : World -> World :=
  http (HttpPost "/api/todo" (JSON.stringify item)) h.

Definition updateItem_settled
    (r : Settled (HttpResponse ITodoItem) HttpError)
  : Settled (HttpResponse ITodoItem) HttpError :=
  match r with
  | Resolved result => Resolved result
  | Rejected err => Rejected err
  end.

(** [+] writes the number in decimal, as JavaScript does for the integers
    a key takes (below [2^53] in absolute value). *)
Definition deleteItem (item : ITodoItem) (h : Handlers) : World -> World :=
  http (HttpDelete ("/api/todo/" +:+ pretty (Id item))) h.

Definition deleteItem_settled
    (r : Settled (HttpResponse string) HttpError)
  : Settled unit HttpError :=
  match r with
  | Resolved _ => Resolved tt
  | Rejected err => Rejected err
  end.

End TodoService.

(** ** [class TodoController] *)

Definition refresh (w : World) : World :=
  let w := set_loading true w in
  TodoService.getItems (filter (this w)) refresh_handlers w.

Definition refresh_settled (p : Settled (list ITodoItem) HttpError)
  : World -> World :=
  then_ p
    (fun list w =>
       let w := set_items list w in
       set_loading false w)
    (fun err w =>
       let w := alert err w in
       set_loading false w).

(** The fields as their initializers leave them, on a page where nothing
    has been sent yet.  [filter] has no initializer: the constructor
    assigns it before anything reads it. *)
Definition fresh : World :=
  mkWorld (mkController (mkFilter "" "" false) [] false) [] ∅ 0%nat [] [].

Definition constructor : World :=
  let w := set_filter
             (mkFilter "" (Columns.name Columns.DueDate) false) fresh in
  refresh w.

Definition get_filterText (w : World) : string := filterText (filter (this w)).

Definition set_filterText (value : string) (w : World) : World :=
  let f := filter (this w) in
  let w := set_filter (mkFilter value (columnName f) (sortAscending f)) w in
  refresh w.

(** A time value: milliseconds since the epoch, [None] for the NaN of an
    invalid date. *)
Definition TimeValue : Type := option Z.

(** [a > b] on dates compares their time values; a comparison with NaN is
    false. *)
Definition Date_gt (a b : TimeValue) : bool :=
  match a, b with
  | Some x, Some y => y <? x
  | _, _ => false
  end.

Section Date.

(** [new Date(s)] for a string: the parser of the browser, which decides
    the formats it reads. *)
Variable Date_parse : string -> TimeValue.

(** [now] is the clock read by [new Date()]. *)
Definition overdue (clock : Z) (todoItem : ITodoItem) : bool :=
  let now := Some clock in
  let due := Date_parse (DueDate todoItem) in
  Date_gt now due.

End Date.

Definition update (todoItem : ITodoItem) (w : World) : World :=
  let w := set_loading true w in
  TodoService.updateItem todoItem update_handlers w.

Definition update_settled (p : Settled (HttpResponse ITodoItem) HttpError)
  : World -> World :=
  then_ p
    (fun _ w => set_loading false w)
    (fun err w =>
       let w := alert err w in
       set_loading false w).

Definition changeColumn (name : string) (w : World) : World :=
  let f := filter (this w) in
  let w :=
    if String.eqb (columnName f) name
    then set_filter
           (mkFilter (filterText f) (columnName f) (negb (sortAscending f))) w
    else set_filter (mkFilter (filterText f) name (sortAscending f)) w in
  refresh w.

Definition noCompleted (w : World) : bool :=
  let hasDone :=
    fold_left (fun hasDone item => if IsDone item then true else hasDone)
              (items (this w)) false in
  negb hasDone.

(** The closure [checkCount] over the variable [count]. *)
Definition checkCount (count : nat) (w : World) : World :=
  let w := write_var count (read_var count w - 1) w in
  if read_var count w =? 0 then refresh w else w.

Definition checkCount_settled (count : nat) (p : Settled unit HttpError)
  : World -> World :=
  then_ p (fun _ => checkCount count) (fun _ => checkCount count).

(** [confirm] is the answer of the user to the prompt. *)
Definition removeCompleted (confirm : bool) (w : World) : World :=
  if negb confirm then w
  else
    let (count, w) := new_var 0 w in
    let w := set_loading true w in
    forEach (items (this w))
      (fun item w =>
         if IsDone item then
           let w := write_var count (read_var count w + 1) w in
           TodoService.deleteItem item (checkCount_handlers count) w
         else w)
      w.

(** ** The event loop *)

Inductive Event : Type :=
| Settle (id : nat) (o : HttpOutcome)
| SetFilterText (value : string)
| Update (todoItem : ITodoItem)
| ChangeColumn (name : string)
| RemoveCompleted (confirm : bool).

(** One turn.  A request is answered once, while it is in flight, with an
    outcome of its kind; any other [Settle] cannot happen. *)
Definition step (w : World) (e : Event) : option World :=
  match e with
  | Settle id o =>
      match in_flight w !! id, o with
      | Some (HttpGet _ _, refresh_handlers), GetOutcome r =>
          Some (refresh_settled (TodoService.getItems_settled r)
                                (answered id w))
      | Some (HttpPost _ _, update_handlers), PostOutcome r =>
          Some (update_settled (TodoService.updateItem_settled r)
                               (answered id w))
      | Some (HttpDelete _, checkCount_handlers count), DeleteOutcome r =>
          Some (checkCount_settled count (TodoService.deleteItem_settled r)
                                   (answered id w))
      | _, _ => None
      end
  | SetFilterText value => Some (set_filterText value w)
  | Update todoItem => Some (update todoItem w)
  | ChangeColumn name => Some (changeColumn name w)
  | RemoveCompleted confirm => Some (removeCompleted confirm w)
  end.

Fixpoint run (w : World) (es : list Event) : option World :=
  match es with
  | [] => Some w
  | e :: es' =>
      match step w e with
      | Some w' => run w' es'
      | None => None
      end
  end.

(** ** [columnToggle]: the directive of a sortable column header *)
Module ColumnToggle.

(** [interface IToggleColumn], the isolate scope: [columnName] and
    [columnDescription] are the attributes of the element, the description
    undefined when the attribute is absent; [currentColumn] and
    [sortAscending] are bound to expressions of the page. *)
Record IToggleColumn : Type := mkScope {
  columnName : string;
  columnDescription : option string;
  currentColumn : string;
  sortAscending : bool
}.

(** The locals handed to the expression bound to [changeColumn]. *)
Record Locals : Type := mkLocals { colName : string }.

(** [link]: the function stored in [scope.toggle], the handler of a click;
    [changeColumn] is what the page bound to the attribute. *)
Definition toggle (changeColumn : Locals -> World -> World)
    (scope : IToggleColumn) : World -> World :=
  changeColumn (mkLocals (columnName scope)).

(** [a || b] where [a] may be undefined: the empty string is falsy too. *)
Definition or_else (a : option string) (b : string) : string :=
  match a with
  | Some s => if String.eqb s "" then b else s
  | None => b
  end.

(** The text of the first interpolation of [template]. *)
Definition label (scope : IToggleColumn) : string :=
  or_else (columnDescription scope) (columnName scope).

(** The text of the span under [ng-if="currentColumn===columnName"]: one
    span per direction, each under its own [ng-if]. *)
Definition indicator (scope : IToggleColumn) : string :=
  if String.eqb (currentColumn scope) (columnName scope)
  then (if sortAscending scope then " ^" else "")
       +:+ (if negb (sortAscending scope) then " v" else "")
  else "".

(** The text [template] renders. *)
Definition template (scope : IToggleColumn) : string :=
  label scope +:+ indicator scope.

End ColumnToggle.

(** * Vocabulary of the properties *)

(** The items flagged done, in the order of the collection. *)
Definition done_items (w : World) : list ITodoItem :=
  List.filter IsDone (items (this w)).

(** The request of [deleteItem(item)]. *)
Definition deleteItem_request (item : ITodoItem) : HttpRequest :=
  HttpDelete ("/api/todo/" +:+ pretty (Id item)).

(** The body of the loop of [removeCompleted]. *)
Local Abbreviation loop_body count :=
  (fun item w =>
     if IsDone item then
       let w := write_var count (read_var count w + 1) w in
       TodoService.deleteItem item (checkCount_handlers count) w
     else w).

(** Answers to delete requests, in the order they arrive. *)
Definition Schedule : Type :=
  list (nat * Settled (HttpResponse string) HttpError).

Definition settlements (sched : Schedule) : list Event :=
  (fun s => Settle s.1 (DeleteOutcome s.2)) <$> sched.

(** The worlds the event loop can reach from the constructor. *)
Definition reachable (w : World) : Prop :=
  ∃ es, run constructor es = Some w.

(** ** What the claim on a confirmed [removeCompleted()] says of a world *)

(** One [deleteItem] per done item, in the order of the collection, in
    flight under consecutive identifiers with [checkCount] waiting on each;
    nothing else is sent and the controller only starts loading. *)
Definition deletes_issued (w : World) : Prop :=
  let w1 := removeCompleted true w in
  let count := length (count_vars w) in
  let dels := done_items w in
  this w1 = this (set_loading true w) ∧
  sent w1 = sent w ++ (deleteItem_request <$> dels) ∧
  next_request w1 = (next_request w + length dels)%nat ∧
  (∀ i item, dels !! i = Some item →
     in_flight w1 !! (next_request w + i)%nat
     = Some (deleteItem_request item, checkCount_handlers count)).

(** In whatever order those deletes are answered, and whether each succeeds
    or fails: before the last answer nothing has been sent and the
    controller has not changed; at the last answer one refresh has been
    triggered. *)
Definition refresh_at_last_answer (w : World) : Prop :=
  let w1 := removeCompleted true w in
  let dels := done_items w in
  ∀ sched : Schedule,
    sched.*1 ≡ₚ seq (next_request w) (length dels) →
    (∀ k, (k < length sched)%nat → ∃ wk,
       run w1 (settlements (take k sched)) = Some wk ∧
       sent wk = sent w1 ∧ this wk = this w1 ∧ alerts wk = alerts w1) ∧
    ∃ w2, run w1 (settlements sched) = Some w2 ∧
       sent w2 = sent w1 ++ [HttpGet "/api/todo" (filter (this w))] ∧
       this w2 = this w1 ∧
       alerts w2 = alerts w1 ∧
       in_flight w2 !! next_request w1
       = Some (HttpGet "/api/todo" (filter (this w)), refresh_handlers).

(** The same when anything else may happen between the answers: after any
    events at all, the answer to a delete of this call that is still in
    flight triggers no refresh while another of them is in flight, triggers
    the refresh when none is, and is never awaited again. *)
Definition refresh_at_last_answer_interleaved (w : World) : Prop :=
  let w1 := removeCompleted true w in
  let ids := seq (next_request w) (length (done_items w)) in
  ∀ es w2, run w1 es = Some w2 →
  ∀ id, id ∈ ids → is_Some (in_flight w2 !! id) →
  ∀ r, ∃ w3,
    step w2 (Settle id (DeleteOutcome r)) = Some w3 ∧
    ((∃ id', id' ∈ ids ∧ id' ≠ id ∧ is_Some (in_flight w2 !! id')) →
       sent w3 = sent w2 ∧ this w3 = this w2 ∧ alerts w3 = alerts w2) ∧
    ((∀ id', id' ∈ ids → id' ≠ id → in_flight w2 !! id' = None) →
       sent w3 = sent w2 ++ [HttpGet "/api/todo" (filter (this w2))] ∧
       this w3 = this (set_loading true w2) ∧ alerts w3 = alerts w2) ∧
    ∀ es' w4, run w3 es' = Some w4 → in_flight w4 !! id = None.

Definition removeCompleted_refreshes_once (w : World) : Prop :=
  deletes_issued w ∧
  refresh_at_last_answer w ∧
  refresh_at_last_answer_interleaved w.

(** The list requests of a log: one per refresh. *)
Definition list_requests (log : list HttpRequest) : list HttpRequest :=
  List.filter (fun req => match req with HttpGet _ _ => true | _ => false end)
              log.

(** The delete requests of a log: one per [deleteItem]. *)
Definition delete_requests (log : list HttpRequest) : list HttpRequest :=
  List.filter (fun req => match req with HttpDelete _ => true | _ => false end)
              log.

(** The claim as it is stated, of any collection, read on the world [w]
    before a call and the world [w1] the call leaves: the call made one
    [deleteItem] per done item; and however those deletes are answered, no
    refresh has been triggered while one of them is unanswered, and
    exactly one has been once they all are.  Where no item is done they
    all are from the start, and the one refresh is due in the call. *)
Definition refreshes_once_after (w w1 : World) : Prop :=
  let dels := done_items w in
  delete_requests (sent w1)
  = delete_requests (sent w) ++ (deleteItem_request <$> dels) ∧
  ∀ sched : Schedule,
    sched.*1 ≡ₚ seq (next_request w) (length dels) →
    (∀ k, (k < length sched)%nat → ∃ wk,
       run w1 (settlements (take k sched)) = Some wk ∧
       list_requests (sent wk) = list_requests (sent w)) ∧
    ∃ w2, run w1 (settlements sched) = Some w2 ∧
       list_requests (sent w2)
       = list_requests (sent w) ++ [HttpGet "/api/todo" (filter (this w))].

Definition removeCompleted_claim (w : World) : Prop :=
  refreshes_once_after w (removeCompleted true w).

(** ** Invariants of the event loop *)

#[export] Instance Handlers_eq_dec : EqDecision Handlers.
Proof. solve_decision. Defined.

(** The requests in flight that wait with [checkCount] over [count]. *)
Definition waiting (count : nat) (w : World)
  : gmap nat (HttpRequest * Handlers) :=
  base.filter (fun e => e.2.2 = checkCount_handlers count) (in_flight w).

(** Identifiers in flight have been given out; a [checkCount] in flight
    waits on a delete and captures a variable that exists; and each [count]
    variable holds the number of requests in flight that wait on it. *)
Record well_formed (w : World) : Prop := mkWf {
  wf_ids : ∀ id e, in_flight w !! id = Some e → (id < next_request w)%nat;
  wf_handlers : ∀ id req count,
    in_flight w !! id = Some (req, checkCount_handlers count) →
    (count < length (count_vars w))%nat ∧ ∃ url, req = HttpDelete url;
  wf_count : ∀ count, (count < length (count_vars w))%nat →
    count_vars w !! count = Some (Z.of_nat (size (waiting count w)))
}.

(** What a turn cannot do to its past: identifiers and variables are only
    ever added, a request already sent is still in flight as it was or has
    been answered, and a [checkCount] attached to a new request captures a
    new variable. *)
Record frame (w w' : World) : Prop := mkFrame {
  frame_next : (next_request w ≤ next_request w')%nat;
  frame_vars : (length (count_vars w) ≤ length (count_vars w'))%nat;
  frame_old : ∀ id, (id < next_request w)%nat →
    in_flight w' !! id = None ∨ in_flight w' !! id = in_flight w !! id;
  frame_new : ∀ id req count, (next_request w ≤ id)%nat →
    in_flight w' !! id = Some (req, checkCount_handlers count) →
    (length (count_vars w) ≤ count)%nat
}.

(** ** Concrete pages *)

(** The page once the first answer of the server, the list [l], has
    arrived. *)
Definition page (l : list ITodoItem) : World :=
  default constructor
    (run constructor
         [Settle 0 (GetOutcome (Resolved (mkResponse l 200 "OK")))]).

Definition three_done : World :=
  page [mkItem 1 true "a" "2020-01-01"; mkItem 2 false "b" "2020-01-02";
        mkItem 3 true "c" "2020-01-03"; mkItem 4 true "d" "2020-01-04"].

Definition none_done : World := page [mkItem 1 false "a" "2020-01-01"].

(** ** Vocabulary of the properties of runs *)

(** The collection after the events [es], starting from [l]: the body of
    the last list answer that succeeded. *)
Fixpoint listed (l : list ITodoItem) (es : list Event) : list ITodoItem :=
  match es with
  | [] => l
  | Settle _ (GetOutcome (Resolved result)) :: es' => listed (data result) es'
  | _ :: es' => listed l es'
  end.

(** The errors of the list and save requests that failed in [es], in the
    order they arrived. *)
Fixpoint failures (es : list Event) : list HttpError :=
  match es with
  | [] => []
  | Settle _ (GetOutcome (Rejected err)) :: es' => err :: failures es'
  | Settle _ (PostOutcome (Rejected err)) :: es' => err :: failures es'
  | _ :: es' => failures es'
  end.

(** Two events that differ at most in how a delete was answered. *)
Definition same_but_delete_outcome (e e' : Event) : Prop :=
  e = e' ∨
  ∃ id r r', e = Settle id (DeleteOutcome r) ∧ e' = Settle id (DeleteOutcome r').

(** The last list request of a log. *)
Definition last_get (log : list HttpRequest) : option HttpRequest :=
  fold_left (fun found req =>
               match req with
               | HttpGet _ _ => Some req
               | _ => found
               end) log None.

(** A header whose bound attributes read the filter of the controller. *)
Definition bound_to (f : ITodoFilter) (scope : ColumnToggle.IToggleColumn)
  : Prop :=
  ColumnToggle.currentColumn scope = columnName f ∧
  ColumnToggle.sortAscending scope = sortAscending f.

(** The header [scope] once its bound attributes read [f]. *)
Definition rebind (f : ITodoFilter) (scope : ColumnToggle.IToggleColumn)
  : ColumnToggle.IToggleColumn :=
  ColumnToggle.mkScope (ColumnToggle.columnName scope)
                       (ColumnToggle.columnDescription scope)
                       (columnName f) (sortAscending f).

(** The page after two changes of the filter text, both list requests still
    in flight. *)
Definition typed_twice : World :=
  set_filterText "ab" (set_filterText "a" none_done).

(** A run in which a save, a delete and a list request fail. *)
Definition busy_run : list Event :=
  [Settle 0 (GetOutcome (Resolved (mkResponse
     [mkItem 1 true "a" "2020-01-01"; mkItem 2 false "b" "2020-01-02"]
     200 "OK")));
   Update (mkItem 2 true "b" "2020-01-02");
   Settle 1 (PostOutcome (Rejected (mkResponse "" 500 "Server Error")));
   RemoveCompleted true;
   Settle 2 (DeleteOutcome (Rejected (mkResponse "" 404 "Not Found")));
   Settle 3 (GetOutcome (Rejected (mkResponse "" 503 "Unavailable")))].

Definition busy_page : World := default constructor (run constructor busy_run).

(** The header of the due date, as the page would declare it. *)
Definition due_header : ColumnToggle.IToggleColumn :=
  ColumnToggle.mkScope "DueDate" (Some "Due") "DueDate" false.

(** The header of the description, with no label of its own. *)
Definition description_header : ColumnToggle.IToggleColumn :=
  ColumnToggle.mkScope "Description" None "DueDate" false.

(** * Properties *)

(** ** Plumbing: what each primitive leaves alone *)

Lemma lookup_http_new req h w :
  in_flight (http req h w) !! next_request w = Some (req, h).
Proof. unfold http; simpl. apply lookup_insert_eq. Qed.

Lemma lookup_http_old req h w id :
  id ≠ next_request w →
  in_flight (http req h w) !! id = in_flight w !! id.
Proof. intros Hne. unfold http; simpl. by apply lookup_insert_ne. Qed.

Lemma deleteItem_settled_runs_checkCount count r w :
  checkCount_settled count (TodoService.deleteItem_settled r) w
  = checkCount count w.
Proof. by destruct r. Qed.

(** ** The requests as they leave *)

Example updateItem_body :
  JSON.stringify (mkItem 1 false "a" "2020-01-01")
  = "{" +:+ JSON.quote "Id" +:+ ":1,"
        +:+ JSON.quote "IsDone" +:+ ":false,"
        +:+ JSON.quote "Description" +:+ ":" +:+ JSON.quote "a" +:+ ","
        +:+ JSON.quote "DueDate" +:+ ":" +:+ JSON.quote "2020-01-01" +:+ "}".
Proof. reflexivity. Qed.

Example deleteItem_url :
  deleteItem_request (mkItem 42 true "a" "2020-01-01")
  = HttpDelete "/api/todo/42".
Proof. reflexivity. Qed.

Example first_request :
  sent constructor = [HttpGet "/api/todo" (mkFilter "" "DueDate" false)].
Proof. reflexivity. Qed.

(** ** [noCompleted] *)

Lemma hasDone_true (l : list ITodoItem) :
  fold_left (fun hasDone item => if IsDone item then true else hasDone) l true
  = true.
Proof. induction l as [|item l IH]; simpl; [done|]. by destruct (IsDone item). Qed.

Lemma hasDone_spec (l : list ITodoItem) :
  fold_left (fun hasDone item => if IsDone item then true else hasDone) l false
  = true ↔ ∃ item, In item l ∧ IsDone item = true.
Proof.
  induction l as [|item l IH]; simpl.
  - split; [done | by intros (? & [] & _)].
  - destruct (IsDone item) eqn:Hd.
    + rewrite hasDone_true. split; [|done]. intros _. exists item. auto.
    + rewrite IH. split.
      * intros (i & Hin & Hi). exists i. auto.
      * intros (i & [-> | Hin] & Hi); [congruence|]. exists i. auto.
Qed.

(** C7. [noCompleted()] is true exactly when every item of the collection
    held by the controller has [IsDone] false, and false exactly when at
    least one item has [IsDone] true. *)
Theorem noCompleted_spec (w : World) :
  (noCompleted w = true ↔
     ∀ item, In item (items (this w)) → IsDone item = false) ∧
  (noCompleted w = false ↔
     ∃ item, In item (items (this w)) ∧ IsDone item = true).
Proof.
  unfold noCompleted.
  pose proof (hasDone_spec (items (this w))) as H.
  destruct (fold_left _ _ _) eqn:E; simpl; split; split; try done.
  - intros Hall. destruct H as [H _]. destruct (H eq_refl) as (i & Hin & Hi).
    rewrite (Hall i Hin) in Hi. done.
  - intros _. by apply H.
  - intros _ item Hin. destruct (IsDone item) eqn:Hd; [|done].
    destruct H as [_ H]. discriminate H. eauto.
  - intros Hex. apply H in Hex. done.
Qed.

(** ** [overdue] *)

(** C6. [overdue(item)] is true exactly when the due date of the item reads
    as a date and the clock is strictly past it; when the clock equals or
    precedes the due date it is false. *)
Theorem overdue_spec (Date_parse : string → TimeValue) (clock : Z)
    (item : ITodoItem) :
  (overdue Date_parse clock item = true ↔
     ∃ due, Date_parse (DueDate item) = Some due ∧ due < clock) ∧
  (∀ due, Date_parse (DueDate item) = Some due → clock ≤ due →
     overdue Date_parse clock item = false).
Proof.
  unfold overdue, Date_gt. split.
  - destruct (Date_parse (DueDate item)) as [due|]; split.
    + intros H. exists due. split; [done | lia].
    + intros (d & [= <-] & Hlt). by apply Z.ltb_lt.
    + done.
    + by intros (d & ? & _).
  - intros due -> Hle. by apply Z.ltb_ge.
Qed.

(** ** [changeColumn] *)

(** C4. [changeColumn(c)] with [c] the current sort column negates
    [sortAscending] and keeps [columnName]; with another [c] it sets
    [columnName] to [c] and keeps [sortAscending]; either way the filter
    text and the items stay and exactly one refresh follows: the call is
    [refresh] on the new filter, so the controller is loading and one
    request, the list request for the new filter, has been sent. *)
Theorem changeColumn_spec (c : string) (w : World) :
  let f := filter (this w) in
  let w' := changeColumn c w in
  (c = columnName f →
     filter (this w')
     = mkFilter (filterText f) (columnName f) (negb (sortAscending f))) ∧
  (c ≠ columnName f →
     filter (this w') = mkFilter (filterText f) c (sortAscending f)) ∧
  w' = refresh (set_filter (filter (this w')) w) ∧
  items (this w') = items (this w) ∧
  loading (this w') = true ∧
  sent w' = sent w ++ [HttpGet "/api/todo" (filter (this w'))] ∧
  next_request w' = S (next_request w) ∧
  in_flight w'
  = <[next_request w
      := (HttpGet "/api/todo" (filter (this w')), refresh_handlers)]>
      (in_flight w).
Proof.
  intros f w'. subst w'. unfold changeColumn. fold f.
  destruct (String.eqb_spec (columnName f) c) as [Heq | Hne]; simpl;
    repeat split; try done; intros; congruence.
Qed.

(** ** [refresh] *)

(** C5. [refresh()] sets [loading] and sends one list request whose
    parameters are the filter, with its three fields.  When that request is
    answered, in whatever world it is then in flight: on success the items
    become the answer as it came and [loading] is cleared; on failure the
    error is alerted, [loading] is cleared and the items stay. *)
Theorem refresh_spec (w : World) :
  let F := filter (this w) in
  let id := next_request w in
  let w1 := refresh w in
  loading (this w1) = true ∧
  filter (this w1) = F ∧
  items (this w1) = items (this w) ∧
  alerts w1 = alerts w ∧
  sent w1 = sent w ++ [HttpGet "/api/todo" F] ∧
  to_js F = JsObject [("filterText", JsString (filterText F));
                      ("columnName", JsString (columnName F));
                      ("sortAscending", JsBoolean (sortAscending F))] ∧
  next_request w1 = S id ∧
  in_flight w1
  = <[id := (HttpGet "/api/todo" F, refresh_handlers)]> (in_flight w) ∧
  in_flight w1 !! id = Some (HttpGet "/api/todo" F, refresh_handlers) ∧
  ∀ w2, in_flight w2 !! id = Some (HttpGet "/api/todo" F, refresh_handlers) →
    (∀ result, ∃ w3,
        step w2 (Settle id (GetOutcome (Resolved result))) = Some w3 ∧
        items (this w3) = data result ∧
        loading (this w3) = false ∧
        filter (this w3) = filter (this w2) ∧
        alerts w3 = alerts w2 ∧
        sent w3 = sent w2) ∧
    (∀ err, ∃ w3,
        step w2 (Settle id (GetOutcome (Rejected err))) = Some w3 ∧
        items (this w3) = items (this w2) ∧
        loading (this w3) = false ∧
        filter (this w3) = filter (this w2) ∧
        alerts w3 = alerts w2 ++ [err] ∧
        sent w3 = sent w2).
Proof.
  intros F id w1. do 8 (split; [done|]).
  split; [apply lookup_insert_eq|].
  intros w2 Hw2. split.
  - intros result. eexists. simpl. rewrite Hw2. by simpl.
  - intros err. eexists. simpl. rewrite Hw2. by simpl.
Qed.

(** ** [update] *)

(** C9. [update(item)] sets [loading] and sends the item to be saved,
    leaving items and filter alone.  When that request is answered, success
    or failure, [loading] is cleared and items and filter are left as they
    were; on failure the error is alerted, on success nothing is. *)
Theorem update_spec (item : ITodoItem) (w : World) :
  let id := next_request w in
  let w1 := update item w in
  let req := HttpPost "/api/todo" (JSON.stringify item) in
  loading (this w1) = true ∧
  items (this w1) = items (this w) ∧
  filter (this w1) = filter (this w) ∧
  alerts w1 = alerts w ∧
  sent w1 = sent w ++ [req] ∧
  in_flight w1 = <[id := (req, update_handlers)]> (in_flight w) ∧
  in_flight w1 !! id = Some (req, update_handlers) ∧
  ∀ w2, in_flight w2 !! id = Some (req, update_handlers) →
    (∀ result, ∃ w3,
        step w2 (Settle id (PostOutcome (Resolved result))) = Some w3 ∧
        loading (this w3) = false ∧
        items (this w3) = items (this w2) ∧
        filter (this w3) = filter (this w2) ∧
        alerts w3 = alerts w2 ∧
        sent w3 = sent w2) ∧
    (∀ err, ∃ w3,
        step w2 (Settle id (PostOutcome (Rejected err))) = Some w3 ∧
        loading (this w3) = false ∧
        items (this w3) = items (this w2) ∧
        filter (this w3) = filter (this w2) ∧
        alerts w3 = alerts w2 ++ [err] ∧
        sent w3 = sent w2).
Proof.
  intros id w1 req. do 6 (split; [done|]).
  split; [apply lookup_insert_eq|].
  intros w2 Hw2. split.
  - intros result. eexists. simpl. rewrite Hw2. by simpl.
  - intros err. eexists. simpl. rewrite Hw2. by simpl.
Qed.

(** ** [TodoService.updateItem] *)

(** C2. The promise of [updateItem] is resolved with the response object of
    [$http], which wraps the item the server returned and is not that item;
    on failure it is rejected with the error [$http] gave. *)
Theorem updateItem_resolves_with_the_response
    (result : HttpResponse ITodoItem) (err : HttpError) :
  TodoService.updateItem_settled (Resolved result) = Resolved result ∧
  to_js result
  = JsObject [("data", to_js (data result));
              ("status", JsNumber (status result));
              ("statusText", JsString (statusText result))] ∧
  to_js result ≠ to_js (data result) ∧
  TodoService.updateItem_settled (Rejected err) = Rejected err.
Proof. repeat split. discriminate. Qed.

(** The same at one answer: the server acknowledges item 1 with status
    200. *)
Example updateItem_acknowledged :
  let item := mkItem 1 false "a" "2020-01-01" in
  ∃ v, TodoService.updateItem_settled (Resolved (mkResponse item 200 "OK"))
       = Resolved v ∧
       to_js v ≠ to_js item ∧
       to_js (data v) = to_js item.
Proof. eexists. repeat split. discriminate. Qed.

(** ** The constructor *)

(** C10. The constructor sets the filter to empty text, column DueDate,
    descending, and triggers one refresh: one list request, for that
    filter, is in flight.  When the server answers it with the single item
    1, not done, described a, due 2020-01-01, the items are that
    one-element list and [loading] is false. *)
Theorem constructor_spec :
  let F := mkFilter "" "DueDate" false in
  let item := mkItem 1 false "a" "2020-01-01" in
  filter (this constructor) = F ∧
  items (this constructor) = [] ∧
  loading (this constructor) = true ∧
  sent constructor = [HttpGet "/api/todo" F] ∧
  in_flight constructor = {[ 0%nat := (HttpGet "/api/todo" F, refresh_handlers) ]} ∧
  constructor = refresh (set_filter F fresh) ∧
  ∀ status statusText, ∃ w,
    step constructor
      (Settle 0 (GetOutcome (Resolved (mkResponse [item] status statusText))))
    = Some w ∧
    items (this w) = [item] ∧
    loading (this w) = false ∧
    filter (this w) = F ∧
    in_flight w = ∅ ∧
    alerts w = [].
Proof.
  repeat split; try done.
  intros status statusText. eexists. repeat split.
Qed.

(** ** [removeCompleted], declined *)

(** C8. When the user declines the prompt, [removeCompleted()] changes
    nothing: no request is sent, and loading flag, items and filter, as all
    the rest, are what they were. *)
Theorem removeCompleted_declined (w : World) :
  removeCompleted false w = w ∧
  step w (RemoveCompleted false) = Some w ∧
  sent (removeCompleted false w) = sent w ∧
  in_flight (removeCompleted false w) = in_flight w ∧
  alerts (removeCompleted false w) = alerts w ∧
  loading (this (removeCompleted false w)) = loading (this w) ∧
  items (this (removeCompleted false w)) = items (this w) ∧
  filter (this (removeCompleted false w)) = filter (this w).
Proof. done. Qed.

(** ** [removeCompleted], confirmed *)

Lemma read_write_var x v w :
  (x < length (count_vars w))%nat → read_var x (write_var x v w) = v.
Proof.
  intros Hx. unfold read_var, write_var; simpl.
  by rewrite list_lookup_insert_eq.
Qed.

(** The loop over a list [l]: one request per done item, under consecutive
    identifiers, each waiting with [checkCount]; [count] has grown by their
    number. *)
Lemma forEach_deletes (count : nat) (l : list ITodoItem) : ∀ w : World,
  (count < length (count_vars w))%nat →
  let w' := forEach l (loop_body count) w in
  let dels := List.filter IsDone l in
  this w' = this w ∧
  alerts w' = alerts w ∧
  sent w' = sent w ++ (deleteItem_request <$> dels) ∧
  next_request w' = (next_request w + length dels)%nat ∧
  count_vars w'
  = <[count := read_var count w + Z.of_nat (length dels)]> (count_vars w) ∧
  (∀ i item, dels !! i = Some item →
     in_flight w' !! (next_request w + i)%nat
     = Some (deleteItem_request item, checkCount_handlers count)) ∧
  (∀ id, (id < next_request w)%nat → in_flight w' !! id = in_flight w !! id).
Proof.
  induction l as [|item l IH]; intros w Hc; simpl.
  - repeat split; try done.
    + by rewrite app_nil_r.
    + rewrite Z.add_0_r. unfold read_var.
      destruct (lookup_lt_is_Some_2 _ _ Hc) as [v Hv]. rewrite Hv. simpl.
      symmetry. by apply list_insert_id.
  - destruct (IsDone item) eqn:Hd; [|by apply IH].
    set (w1 := TodoService.deleteItem item (checkCount_handlers count)
                 (write_var count (read_var count w + 1) w)).
    assert (Hc1 : (count < length (count_vars w1))%nat).
    { subst w1; simpl. by rewrite length_insert. }
    destruct (IH w1 Hc1) as (Hthis & Hal & Hsent & Hnext & Hvars & Hin & Hold).
    unfold forEach in *. simpl in *.
    rewrite Hthis, Hal, Hsent, Hnext, Hvars. clear Hthis Hal Hsent Hnext Hvars.
    repeat split.
    + subst w1; simpl. by rewrite <- app_assoc.
    + subst w1; simpl. lia.
    + subst w1; unfold TodoService.deleteItem, http; simpl.
      rewrite list_insert_insert_eq. f_equal.
      change (read_var count (write_var count (read_var count w + 1) w)
              + Z.of_nat (length (List.filter IsDone l))
              = read_var count w
                + Z.of_nat (S (length (List.filter IsDone l)))).
      rewrite read_write_var by done. lia.
    + intros [|i] it Hi; simpl in Hi.
      * injection Hi as <-. rewrite Nat.add_0_r.
        rewrite Hold by (subst w1; simpl; lia).
        subst w1. apply lookup_http_new.
      * specialize (Hin i it Hi). subst w1; simpl in Hin.
        by replace (next_request w + S i)%nat with (S (next_request w + i)) by lia.
    + intros id Hid. rewrite Hold by (subst w1; simpl; lia).
      subst w1. apply lookup_http_old. simpl. lia.
Qed.

(** A confirmed [removeCompleted()] from any world. *)
Lemma removeCompleted_confirmed (w : World) :
  let w1 := removeCompleted true w in
  let count := length (count_vars w) in
  let dels := done_items w in
  this w1 = this (set_loading true w) ∧
  alerts w1 = alerts w ∧
  sent w1 = sent w ++ (deleteItem_request <$> dels) ∧
  next_request w1 = (next_request w + length dels)%nat ∧
  count_vars w1 = count_vars w ++ [Z.of_nat (length dels)] ∧
  (∀ i item, dels !! i = Some item →
     in_flight w1 !! (next_request w + i)%nat
     = Some (deleteItem_request item, checkCount_handlers count)) ∧
  (∀ id, (id < next_request w)%nat → in_flight w1 !! id = in_flight w !! id).
Proof.
  intros w1 count dels. subst w1. unfold removeCompleted; simpl.
  set (w0 := set_loading true (new_var 0 w).2).
  assert (Hc : (count < length (count_vars w0))%nat).
  { subst w0 count; simpl. rewrite length_app; simpl. lia. }
  destruct (forEach_deletes count (items (this w)) w0 Hc)
    as (Hthis & Hal & Hsent & Hnext & Hvars & Hin & Hold).
  repeat split; try done.
  etrans; [exact Hvars|]. subst w0 count. unfold read_var; simpl.
  rewrite list_lookup_middle by done. simpl.
  replace (length (count_vars w)) with (length (count_vars w) + 0)%nat
    at 1 by lia.
  by rewrite insert_app_r.
Qed.

Lemma run_cons w e es w' : step w e = Some w' → run w (e :: es) = run w' es.
Proof. intros H. simpl. by rewrite H. Qed.

(** One answer to a delete whose handlers are [checkCount] over [count]. *)
Lemma step_delete w id url count r :
  in_flight w !! id = Some (HttpDelete url, checkCount_handlers count) →
  step w (Settle id (DeleteOutcome r)) = Some (checkCount count (answered id w)).
Proof.
  intros H. simpl. rewrite H. by rewrite deleteItem_settled_runs_checkCount.
Qed.

(** The countdown: [count] holds the number of deletes still in flight; the
    answers before the last change nothing the user sees, the last one
    refreshes. *)
Lemma countdown (count : nat) (sched : Schedule) : ∀ w : World,
  NoDup sched.*1 →
  (∀ id, id ∈ sched.*1 → ∃ url,
     in_flight w !! id = Some (HttpDelete url, checkCount_handlers count)) →
  count_vars w !! count = Some (Z.of_nat (length sched)) →
  sched ≠ [] →
  (∀ k, (k < length sched)%nat → ∃ wk,
     run w (settlements (take k sched)) = Some wk ∧
     sent wk = sent w ∧ this wk = this w ∧ alerts wk = alerts w ∧
     next_request wk = next_request w) ∧
  ∃ w2, run w (settlements sched) = Some w2 ∧
     sent w2 = sent w ++ [HttpGet "/api/todo" (filter (this w))] ∧
     this w2 = this (set_loading true w) ∧
     alerts w2 = alerts w ∧
     in_flight w2 !! next_request w
     = Some (HttpGet "/api/todo" (filter (this w)), refresh_handlers).
Proof.
  induction sched as [|[id r] sched IH]; intros w Hnd Hfl Hcount Hne; [done|].
  rewrite fmap_cons in Hnd, Hfl. cbn [fst length] in *.
  apply NoDup_cons in Hnd as [Hid Hnd].
  destruct (Hfl id) as [url Hurl]; [left|].
  set (m := Z.of_nat (length sched)).
  set (w1 := write_var count m (answered id w)).
  assert (Hlt : (count < length (count_vars (answered id w)))%nat).
  { simpl. by eapply lookup_lt_Some. }
  assert (Hrd : read_var count w1 = m) by (by apply read_write_var).
  assert (Hstep : step w (Settle id (DeleteOutcome r))
                  = Some (if m =? 0 then refresh w1 else w1)).
  { rewrite (step_delete _ _ _ _ _ Hurl). f_equal. unfold checkCount.
    replace (read_var count (answered id w) - 1) with m.
    - fold w1. by rewrite Hrd.
    - unfold read_var; simpl. rewrite Hcount; simpl. lia. }
  destruct sched as [|s sched'].
  - (* the last answer *)
    split.
    + intros k Hk. assert (k = 0%nat) as -> by (simpl in Hk; lia).
      by exists w.
    + eexists. split; [exact (run_cons _ _ [] _ Hstep)|].
      repeat split. subst w1; simpl. apply lookup_insert_eq.
  - (* more to come *)
    assert (Hm : (m =? 0) = false) by (apply Z.eqb_neq; subst m; simpl; lia).
    rewrite Hm in Hstep.
    destruct (IH w1) as [Hpre (w2 & Hrun & H2)]; try done.
    { intros id' Hin. destruct (Hfl id') as [url' Hurl']; [by right|].
      exists url'. subst w1; simpl. rewrite lookup_delete_ne; [done|].
      by intros ->. }
    { subst w1; simpl. apply list_lookup_insert_eq. by eapply lookup_lt_Some. }
    split.
    + intros [|k] Hk; [by exists w|].
      destruct (Hpre k) as (wk & Hk1 & Hk2); [simpl in *; lia|].
      exists wk. split; [|done].
      rewrite <- Hk1. exact (run_cons _ _ _ _ Hstep).
    + exists w2. split; [|done].
      rewrite <- Hrun. exact (run_cons _ _ _ _ Hstep).
Qed.

(** ** The countdown under any interleaving

    Between the answers to its deletes a call of [removeCompleted] shares
    the page with everything else the user and the network do.  In every
    world the event loop can reach, each [count] variable holds the number
    of requests in flight whose handlers captured it. *)

Lemma wf_ext w w' :
  in_flight w' = in_flight w → next_request w' = next_request w →
  count_vars w' = count_vars w → well_formed w → well_formed w'.
Proof.
  intros Hf Hn Hv [H1 H2 H3]. unfold waiting in *.
  split; rewrite ?Hf, ?Hn, ?Hv; try done.
  intros count. unfold waiting. rewrite Hf. apply H3.
Qed.

Lemma wf_fresh_id w : well_formed w → in_flight w !! next_request w = None.
Proof.
  intros Hwf. destruct (in_flight w !! next_request w) as [e|] eqn:E; [|done].
  apply (wf_ids _ Hwf) in E. lia.
Qed.

(** A request whose handlers capture no variable. *)
Lemma wf_http req h w :
  (∀ count, h ≠ checkCount_handlers count) → well_formed w → well_formed (http req h w).
Proof.
  intros Hh Hwf. pose proof (wf_fresh_id w Hwf) as Hnew.
  split; simpl.
  - intros id e [[<- <-] | [Hne He]]%lookup_insert_Some; [lia|].
    apply (wf_ids _ Hwf) in He. lia.
  - intros id r count [[_ Heq] | [Hne He]]%lookup_insert_Some.
    + injection Heq as _ Heq. by destruct (Hh count).
    + by apply (wf_handlers _ Hwf) in He.
  - intros count Hc. rewrite (wf_count _ Hwf) by done.
    unfold waiting; simpl. rewrite map_filter_insert_not'; [done | |].
    + simpl. apply Hh.
    + intros y Hy. congruence.
Qed.

(** One turn of the loop of [removeCompleted]: [count] grows by one as one
    more delete waits on it. *)
Lemma wf_delete_iteration item count w :
  (count < length (count_vars w))%nat → well_formed w →
  well_formed (TodoService.deleteItem item (checkCount_handlers count)
        (write_var count (read_var count w + 1) w)).
Proof.
  intros Hc Hwf. pose proof (wf_fresh_id w Hwf) as Hnew.
  split; simpl.
  - intros id e [[<- <-] | [Hne He]]%lookup_insert_Some; [lia|].
    apply (wf_ids _ Hwf) in He. lia.
  - intros id r c. rewrite length_insert.
    intros [[_ Heq] | [Hne He]]%lookup_insert_Some.
    + injection Heq as <- <-. eauto.
    + by apply (wf_handlers _ Hwf) in He.
  - intros c. rewrite length_insert. intros Hlt.
    unfold waiting, read_var; simpl.
    destruct (decide (c = count)) as [-> | Hne].
    + rewrite list_lookup_insert_eq by done.
      rewrite (wf_count _ Hwf) by done. simpl.
      rewrite map_filter_insert_True by done.
      rewrite map_size_insert_None.
      * f_equal. unfold waiting. lia.
      * apply map_lookup_filter_None_2. by left.
    + rewrite list_lookup_insert_ne by done.
      rewrite (wf_count _ Hwf) by done.
      rewrite map_filter_insert_not'; [done | |].
      * simpl. congruence.
      * intros y Hy. congruence.
Qed.

Lemma wf_forEach_deletes count (l : list ITodoItem) : ∀ w,
  (count < length (count_vars w))%nat → well_formed w →
  well_formed (forEach l (loop_body count) w).
Proof.
  induction l as [|item l IH]; intros w Hc Hwf; [done|].
  unfold forEach in *; simpl. destruct (IsDone item); [|by apply IH].
  apply IH.
  - simpl. by rewrite length_insert.
  - by apply wf_delete_iteration.
Qed.

(** A new variable is captured by nothing yet. *)
Lemma wf_new_var w : well_formed w → well_formed (new_var 0 w).2.
Proof.
  intros Hwf. split; simpl.
  - apply (wf_ids _ Hwf).
  - intros id req count He. rewrite length_app; simpl.
    apply (wf_handlers _ Hwf) in He as [Hlt Hurl]. split; [lia | done].
  - intros count. rewrite length_app; simpl. intros Hlt.
    destruct (decide (count = length (count_vars w))) as [-> | Hne].
    + rewrite list_lookup_middle by done.
      replace (size (waiting (length (count_vars w)) (new_var 0 w).2))
        with 0%nat; [done|].
      symmetry. apply map_size_empty_iff, map_empty. intros id.
      apply map_lookup_filter_None_2. right. intros [req h] He Hh.
      simpl in *. subst h.
      apply (wf_handlers _ Hwf) in He as [Hc _]. lia.
    + rewrite lookup_app_l by lia. apply (wf_count _ Hwf). lia.
Qed.

Lemma wf_refresh w : well_formed w → well_formed (refresh w).
Proof.
  intros Hwf. unfold refresh. apply wf_http; [done|].
  by apply (wf_ext w).
Qed.

Lemma wf_update item w : well_formed w → well_formed (update item w).
Proof.
  intros Hwf. unfold update. apply wf_http; [done|].
  by apply (wf_ext w).
Qed.

Lemma wf_removeCompleted confirm w : well_formed w → well_formed (removeCompleted confirm w).
Proof.
  intros Hwf. destruct confirm; [|done]. unfold removeCompleted; simpl.
  apply wf_forEach_deletes.
  - simpl. rewrite length_app; simpl. lia.
  - apply (wf_ext (new_var 0 w).2); try done. by apply wf_new_var.
Qed.

(** The answer to a request whose handlers capture no variable. *)
Lemma wf_answered id req h w :
  in_flight w !! id = Some (req, h) →
  (∀ count, h ≠ checkCount_handlers count) → well_formed w → well_formed (answered id w).
Proof.
  intros He Hh Hwf. split; simpl.
  - intros id' e [_ He']%lookup_delete_Some. by apply (wf_ids _ Hwf) in He'.
  - intros id' r c [_ He']%lookup_delete_Some.
    by apply (wf_handlers _ Hwf) in He'.
  - intros c Hc. rewrite (wf_count _ Hwf) by done.
    unfold waiting; simpl. rewrite map_filter_delete_not; [done|].
    intros y Hy. rewrite He in Hy. injection Hy as <-. simpl. apply Hh.
Qed.

(** The answer to a delete, up to the decrement in [checkCount]. *)
Lemma wf_answered_delete id req count w :
  in_flight w !! id = Some (req, checkCount_handlers count) → well_formed w →
  well_formed (write_var count (read_var count (answered id w) - 1) (answered id w)) ∧
  read_var count (answered id w) = Z.of_nat (size (waiting count w)) ∧
  size (waiting count w) = S (size (waiting count (answered id w))).
Proof.
  intros He Hwf.
  destruct (wf_handlers _ Hwf _ _ _ He) as [Hc _].
  assert (Hin : waiting count w !! id = Some (req, checkCount_handlers count)).
  { by apply map_lookup_filter_Some_2. }
  assert (Hsz : size (waiting count w)
                = S (size (waiting count (answered id w)))).
  { unfold waiting in *; simpl. rewrite map_filter_delete.
    rewrite map_size_delete_Some by eauto.
    destruct (size _) eqn:E; [|done].
    apply map_size_empty_iff in E. rewrite E in Hin. by rewrite lookup_empty in Hin. }
  assert (Hrd : read_var count (answered id w)
                = Z.of_nat (size (waiting count w))).
  { unfold read_var; simpl. by rewrite (wf_count _ Hwf). }
  split; [|done]. split; simpl.
  - intros id' e [_ He']%lookup_delete_Some. by apply (wf_ids _ Hwf) in He'.
  - intros id' r c [_ He']%lookup_delete_Some. rewrite length_insert.
    by apply (wf_handlers _ Hwf) in He'.
  - intros c. rewrite length_insert. intros Hlt.
    destruct (decide (c = count)) as [-> | Hne].
    + rewrite list_lookup_insert_eq by done. f_equal.
      rewrite Hrd, Hsz. unfold waiting; simpl. lia.
    + rewrite list_lookup_insert_ne by done.
      rewrite (wf_count _ Hwf) by done.
      unfold waiting; simpl. rewrite map_filter_delete_not; [done|].
      intros y Hy. rewrite He in Hy. injection Hy as <-. simpl. congruence.
Qed.

Lemma wf_checkCount id req count w :
  in_flight w !! id = Some (req, checkCount_handlers count) → well_formed w →
  well_formed (checkCount count (answered id w)).
Proof.
  intros He Hwf. destruct (wf_answered_delete _ _ _ _ He Hwf) as [Hwf' _].
  unfold checkCount. destruct (_ =? 0); [by apply wf_refresh | done].
Qed.

Lemma wf_step w e w' : step w e = Some w' → well_formed w → well_formed w'.
Proof.
  intros Hstep Hwf. destruct e as [id o | value | item | name | confirm];
    simpl in Hstep.
  - destruct (in_flight w !! id) as [[req h]|] eqn:He; [|done].
    destruct req, h, o; try done; injection Hstep as <-.
    + apply (wf_ext (answered id w)); [by destruct r..|].
      by eapply wf_answered.
    + apply (wf_ext (answered id w)); [by destruct r..|].
      by eapply wf_answered.
    + rewrite deleteItem_settled_runs_checkCount. by eapply wf_checkCount.
  - injection Hstep as <-. unfold set_filterText.
    apply wf_refresh. by apply (wf_ext w).
  - injection Hstep as <-. by apply wf_update.
  - injection Hstep as <-. unfold changeColumn.
    apply wf_refresh. destruct (String.eqb _ _); by apply (wf_ext w).
  - injection Hstep as <-. by apply wf_removeCompleted.
Qed.

Lemma wf_run es : ∀ w w', run w es = Some w' → well_formed w → well_formed w'.
Proof.
  induction es as [|e es IH]; intros w w' Hrun Hwf; simpl in Hrun.
  - by injection Hrun as <-.
  - destruct (step w e) as [w1|] eqn:Hstep; [|done].
    eapply IH; [done|]. by eapply wf_step.
Qed.

Lemma wf_fresh : well_formed fresh.
Proof.
  split; simpl.
  - intros id e. by rewrite lookup_empty.
  - intros id req count. by rewrite lookup_empty.
  - intros count Hc. lia.
Qed.

Lemma wf_reachable w : reachable w → well_formed w.
Proof.
  intros [es Hrun]. eapply wf_run; [done|].
  unfold constructor. apply wf_refresh. by apply (wf_ext fresh), wf_fresh.
Qed.

Lemma frame_refl w : well_formed w → frame w w.
Proof.
  intros Hwf. split; try done; [by right|].
  intros id req count Hid He. apply (wf_ids _ Hwf) in He. lia.
Qed.

Lemma frame_trans w1 w2 w3 : frame w1 w2 → frame w2 w3 → frame w1 w3.
Proof.
  intros [Hn12 Hv12 Ho12 Hw12] [Hn23 Hv23 Ho23 Hw23]. split.
  - lia.
  - lia.
  - intros id Hid. destruct (Ho23 id) as [H | H]; [lia | by left |].
    rewrite H. by apply Ho12.
  - intros id req count Hid He.
    destruct (decide (id < next_request w2)%nat) as [Hlt | Hge].
    + destruct (Ho23 id Hlt) as [H | H]; [congruence|].
      rewrite H in He. by eapply Hw12.
    + etrans; [exact Hv12|]. eapply Hw23; [|done]. lia.
Qed.

Lemma frame_ext w w1 w' :
  in_flight w1 = in_flight w → next_request w1 = next_request w →
  length (count_vars w1) = length (count_vars w) → frame w1 w' → frame w w'.
Proof.
  intros Hf Hn Hv [H1 H2 H3 H4]. split; rewrite <- ?Hf, <- ?Hn, <- ?Hv; done.
Qed.

Lemma frame_ext_r w w1 w' :
  in_flight w' = in_flight w1 → next_request w' = next_request w1 →
  length (count_vars w') = length (count_vars w1) → frame w w1 → frame w w'.
Proof.
  intros Hf Hn Hv [H1 H2 H3 H4]. split; rewrite ?Hf, ?Hn, ?Hv; done.
Qed.

Lemma frame_http req h w :
  (∀ count, h ≠ checkCount_handlers count) → well_formed w → frame w (http req h w).
Proof.
  intros Hh Hwf. split; simpl.
  - lia.
  - done.
  - intros id Hid. right. apply lookup_insert_ne. lia.
  - intros id r count Hid [[_ Heq] | [_ He]]%lookup_insert_Some.
    + injection Heq as _ Heq. by destruct (Hh count).
    + apply (wf_ids _ Hwf) in He. lia.
Qed.

Lemma frame_refresh w : well_formed w → frame w (refresh w).
Proof.
  intros Hwf. unfold refresh.
  apply (frame_ext w (set_loading true w)); try done.
  apply frame_http; [done|]. by apply (wf_ext w).
Qed.

Lemma frame_answered id w : well_formed w → frame w (answered id w).
Proof.
  intros Hwf. split; simpl; try done.
  - intros id' _. destruct (decide (id = id')) as [-> | Hne].
    + left. apply lookup_delete_eq.
    + right. by apply lookup_delete_ne.
  - intros id' req count Hid [_ He]%lookup_delete_Some.
    apply (wf_ids _ Hwf) in He. lia.
Qed.

(** Where the requests in flight after the loop come from. *)
Lemma forEach_in_flight count (l : list ITodoItem) : ∀ w id req h,
  in_flight (forEach l (loop_body count) w) !! id = Some (req, h) →
  in_flight w !! id = Some (req, h) ∨
  ((next_request w ≤ id)%nat ∧ h = checkCount_handlers count).
Proof.
  induction l as [|item l IH]; intros w id req h He; [by left|].
  unfold forEach in *; simpl in He. destruct (IsDone item); [|by apply IH].
  apply IH in He as [He | [Hid ->]]; simpl in *.
  - apply lookup_insert_Some in He as [[<- Heq] | [_ He]]; [|by left].
    injection Heq as _ <-. right. split; [lia | done].
  - right. split; [lia | done].
Qed.

Lemma frame_removeCompleted confirm w :
  well_formed w → frame w (removeCompleted confirm w).
Proof.
  intros Hwf. destruct confirm; [|by apply frame_refl].
  destruct (removeCompleted_confirmed w)
    as (_ & _ & _ & Hnext & Hvars & _ & Hold).
  split.
  - rewrite Hnext. lia.
  - rewrite Hvars, length_app. lia.
  - intros id Hid. right. by apply Hold.
  - intros id req count Hid He. unfold removeCompleted in He; simpl in He.
    apply forEach_in_flight in He as [He | [_ Heq]]; simpl in *.
    + apply (wf_ids _ Hwf) in He. lia.
    + injection Heq as ->. done.
Qed.

Lemma frame_step w e w' : step w e = Some w' → well_formed w → frame w w'.
Proof.
  intros Hstep Hwf. destruct e as [id o | value | item | name | confirm];
    simpl in Hstep.
  - destruct (in_flight w !! id) as [[req h]|] eqn:He; [|done].
    pose proof (frame_answered id w Hwf) as Hfr.
    destruct req, h, o; try done; injection Hstep as <-.
    + apply (frame_ext_r _ (answered id w)); [by destruct r..|done].
    + apply (frame_ext_r _ (answered id w)); [by destruct r..|done].
    + rewrite deleteItem_settled_runs_checkCount.
      destruct (wf_answered_delete _ _ _ _ He Hwf) as [Hwf' _].
      set (w1 := write_var count (read_var count (answered id w) - 1)
                           (answered id w)) in *.
      assert (Hfr1 : frame w w1).
      { apply (frame_ext_r _ (answered id w)); try done.
        subst w1; simpl. by rewrite length_insert. }
      unfold checkCount. fold w1. destruct (_ =? 0); [|done].
      eapply frame_trans; [exact Hfr1|]. by apply frame_refresh.
  - injection Hstep as <-. unfold set_filterText.
    eapply frame_ext; [..|apply frame_refresh]; try done. by apply (wf_ext w).
  - injection Hstep as <-. unfold update.
    eapply frame_ext; [..|apply frame_http]; try done. by apply (wf_ext w).
  - injection Hstep as <-. unfold changeColumn.
    destruct (String.eqb _ _);
      (eapply frame_ext; [..|apply frame_refresh]; try done; by apply (wf_ext w)).
  - injection Hstep as <-. by apply frame_removeCompleted.
Qed.

Lemma frame_run es : ∀ w w', run w es = Some w' → well_formed w → frame w w'.
Proof.
  induction es as [|e es IH]; intros w w' Hrun Hwf; simpl in Hrun.
  - injection Hrun as <-. by apply frame_refl.
  - destruct (step w e) as [w1|] eqn:Hstep; [|done].
    eapply frame_trans; [by eapply frame_step|].
    apply IH; [done|]. by eapply wf_step.
Qed.

(** The handlers of a call in flight later on wait on deletes of that
    call. *)
Lemma checkCount_owned w es w2 :
  well_formed w → run (removeCompleted true w) es = Some w2 →
  ∀ id req,
    in_flight w2 !! id
    = Some (req, checkCount_handlers (length (count_vars w))) →
    id ∈ seq (next_request w) (length (done_items w)).
Proof.
  intros Hwf Hrun id req He.
  destruct (removeCompleted_confirmed w)
    as (_ & _ & _ & Hnext & Hvars & _ & Hold).
  set (w1 := removeCompleted true w) in *.
  assert (Hwf1 : well_formed w1) by (by apply wf_removeCompleted).
  pose proof (frame_run _ _ _ Hrun Hwf1) as Hfr.
  apply elem_of_seq.
  destruct (decide (id < next_request w1)%nat) as [Hlt | Hge].
  - destruct (frame_old _ _ Hfr id Hlt) as [H | H]; [congruence|].
    rewrite H in He.
    destruct (decide (id < next_request w)%nat) as [Hlt' | Hge']; [|lia].
    rewrite Hold in He by done.
    apply (wf_handlers _ Hwf) in He as [Hc _]. lia.
  - apply (frame_new _ _ Hfr) in He; [|lia].
    rewrite Hvars, length_app in He. simpl in He. lia.
Qed.

Lemma countdown_interleaved (w : World) :
  reachable w → refresh_at_last_answer_interleaved w.
Proof.
  intros Hwf%wf_reachable. unfold refresh_at_last_answer_interleaved.
  cbv zeta. set (w1 := removeCompleted true w). set (ids := seq _ _).
  intros es w2 Hrun id Hid Hfl r.
  pose proof (checkCount_owned w es w2 Hwf Hrun) as Hown. fold ids in Hown.
  destruct (removeCompleted_confirmed w)
    as (_ & _ & _ & Hnext & Hvars & Hin & Hold).
  fold w1 in Hnext, Hvars, Hin, Hold.
  set (count := length (count_vars w)) in *.
  set (dels := done_items w) in *.
  assert (Hwf1 : well_formed w1) by (by apply wf_removeCompleted).
  assert (Hwf2 : well_formed w2) by (by eapply wf_run).
  pose proof (frame_run _ _ _ Hrun Hwf1) as Hfr.
  (* the deletes of this call still in flight are as the call left them *)
  assert (Hmine : ∀ id', id' ∈ ids → is_Some (in_flight w2 !! id') →
            ∃ url, in_flight w2 !! id'
                   = Some (HttpDelete url, checkCount_handlers count)).
  { intros id' Hid' [e He]. apply elem_of_seq in Hid'.
    destruct (frame_old _ _ Hfr id') as [H | H]; [lia | congruence |].
    destruct (lookup_lt_is_Some_2 dels (id' - next_request w)) as [it Hit];
      [lia|].
    specialize (Hin _ _ Hit).
    replace (next_request w + (id' - next_request w))%nat with id' in Hin
      by lia.
    rewrite H, Hin. by eexists. }
  destruct (Hmine id Hid Hfl) as [url He].
  destruct (wf_answered_delete _ _ _ _ He Hwf2) as (Hwf3 & Hrd & Hsz).
  destruct (wf_handlers _ Hwf2 _ _ _ He) as [Hc _].
  set (k := size (waiting count (answered id w2))) in *.
  set (w3 := write_var count (Z.of_nat k) (answered id w2)).
  assert (Hstep : step w2 (Settle id (DeleteOutcome r))
                  = Some (if Z.of_nat k =? 0 then refresh w3 else w3)).
  { rewrite (step_delete _ _ _ _ _ He). f_equal. unfold checkCount.
    replace (read_var count (answered id w2) - 1) with (Z.of_nat k) by lia.
    fold w3. replace (read_var count w3) with (Z.of_nat k); [done|].
    symmetry. by apply read_write_var. }
  assert (Hid3 : (id < next_request w2)%nat) by (by eapply wf_ids).
  eexists. split; [exact Hstep|]. split; [|split].
  - intros (id' & Hid' & Hne & Hfl').
    destruct (Hmine id' Hid' Hfl') as [url' He'].
    assert (Hk : k ≠ 0%nat).
    { apply map_size_non_empty_iff. intros Hempty.
      assert (waiting count (answered id w2) !! id'
              = Some (HttpDelete url', checkCount_handlers count)) as Hw.
      { apply map_lookup_filter_Some_2; [|done]. simpl.
        by rewrite lookup_delete_ne. }
      rewrite Hempty in Hw. by rewrite lookup_empty in Hw. }
    destruct (Z.eqb_spec (Z.of_nat k) 0); [lia | done].
  - intros Hlast.
    assert (Hk : k = 0%nat).
    { apply map_size_empty_iff, map_empty. intros id'.
      apply map_lookup_filter_None_2.
      destruct (decide (id' = id)) as [-> | Hne].
      - left. simpl. apply lookup_delete_eq.
      - right. intros [req h] He' Hh. simpl in *. subst h.
        rewrite lookup_delete_ne in He' by done.
        rewrite (Hlast id') in He'; [done | by eapply Hown | done]. }
    rewrite Hk. simpl. done.
  - intros es' w4 Hrun4.
    assert (Hwf4 : well_formed (if Z.of_nat k =? 0 then refresh w3 else w3)).
    { eapply wf_step; [exact Hstep | done]. }
    assert (Hnone : in_flight (if Z.of_nat k =? 0 then refresh w3 else w3)
                    !! id = None).
    { destruct (_ =? 0); simpl.
      - rewrite lookup_insert_ne by lia. apply lookup_delete_eq.
      - apply lookup_delete_eq. }
    destruct (frame_old _ _ (frame_run _ _ _ Hrun4 Hwf4) id) as [H | H].
    + destruct (_ =? 0); simpl; lia.
    + done.
    + by rewrite H.
Qed.

Lemma countdown_scheduled (w : World) :
  done_items w ≠ [] → refresh_at_last_answer w.
Proof.
  intros Hdone. unfold refresh_at_last_answer.
  destruct (removeCompleted_confirmed w)
    as (Hthis & Hal & Hsent & Hnext & Hvars & Hin & Hold).
  set (w1 := removeCompleted true w) in *.
  set (dels := done_items w) in *.
  intros sched Hperm.
  assert (Hlen : length sched = length dels).
  { by rewrite <- (length_fmap fst), Hperm, length_seq. }
  destruct (countdown (length (count_vars w)) sched w1)
    as [Hpre (w2 & Hrun & Hs2 & Ht2 & Ha2 & Hf2)].
  - rewrite Hperm. apply NoDup_seq.
  - intros id Hid. rewrite Hperm in Hid. apply elem_of_seq in Hid.
    destruct (lookup_lt_is_Some_2 dels (id - next_request w)) as [it Hit];
      [lia|].
    specialize (Hin _ _ Hit).
    replace (next_request w + (id - next_request w))%nat with id in Hin by lia.
    eexists. exact Hin.
  - rewrite Hvars, Hlen. by apply list_lookup_middle.
  - intros ->. destruct dels; [done | discriminate].
  - split.
    + intros k Hk. destruct (Hpre k Hk) as (wk & ? & ? & ? & ? & ?).
      by exists wk.
    + exists w2. rewrite Hnext in Hf2.
      assert (Ht : this w2 = this w1).
      { rewrite Ht2. simpl. rewrite Hthis. done. }
      rewrite Hthis in Hs2, Hf2. rewrite Hnext. done.
Qed.

Lemma page_reachable l : reachable (page l).
Proof.
  by exists [Settle 0 (GetOutcome (Resolved (mkResponse l 200 "OK")))].
Qed.

Lemma list_requests_deletes log (dels : list ITodoItem) :
  list_requests (log ++ (deleteItem_request <$> dels)) = list_requests log.
Proof.
  unfold list_requests. rewrite List.filter_app.
  induction dels as [|item dels IH]; simpl; [by rewrite app_nil_r | done].
Qed.

Lemma list_requests_get log url params :
  list_requests (log ++ [HttpGet url params])
  = list_requests log ++ [HttpGet url params].
Proof. unfold list_requests. by rewrite List.filter_app. Qed.

Lemma delete_requests_deletes log (dels : list ITodoItem) :
  delete_requests (log ++ (deleteItem_request <$> dels))
  = delete_requests log ++ (deleteItem_request <$> dels).
Proof.
  unfold delete_requests. rewrite List.filter_app. f_equal.
  induction dels as [|item dels IH]; simpl; [done | by f_equal].
Qed.

(** The account of the countdown in exact worlds gives the claim. *)
Lemma refreshes_once_claim (w : World) :
  deletes_issued w → refresh_at_last_answer w → removeCompleted_claim w.
Proof.
  intros (_ & Hsent & _ & _) Hsched. split.
  - rewrite Hsent. apply delete_requests_deletes.
  - intros sched Hperm.
    destruct (Hsched sched Hperm) as [Hpre (w2 & Hrun & Hs2 & _)]. split.
    + intros k Hk. destruct (Hpre k Hk) as (wk & Hk1 & Hk2 & _).
      exists wk. split; [done|]. rewrite Hk2, Hsent.
      apply list_requests_deletes.
    + exists w2. split; [done|].
      by rewrite Hs2, list_requests_get, Hsent, list_requests_deletes.
Qed.

(** C1, amended. In every world the page can reach whose collection has at
    least one item flagged done, a confirmed [removeCompleted()] issues
    exactly one [deleteItem] per done item and triggers exactly one
    refresh, at the answer to the last of those deletes and not before,
    success and failure alike, whatever else happens in between: the claim
    holds there, and so does the account of it in exact worlds. *)
Theorem removeCompleted_spec (w : World) :
  reachable w → done_items w ≠ [] →
  removeCompleted_claim w ∧ removeCompleted_refreshes_once w.
Proof.
  intros Hreach Hdone.
  assert (Hissued : deletes_issued w).
  { destruct (removeCompleted_confirmed w)
      as (Hthis & _ & Hsent & Hnext & _ & Hin & _).
    by repeat split. }
  assert (Hsched : refresh_at_last_answer w) by (by apply countdown_scheduled).
  split; [by apply refreshes_once_claim|].
  split; [done|]. split; [done|]. by apply countdown_interleaved.
Qed.

(** Three done items; the deletes of items 4 and 1 succeed, then the delete
    of item 3 fails: no refresh after the first two answers, one refresh at
    the third. *)
Lemma removeCompleted_three_done :
  let w1 := removeCompleted true three_done in
  let ok := DeleteOutcome (Resolved (mkResponse "" 204 "No Content")) in
  let ko := DeleteOutcome (Rejected (mkResponse "" 500 "Server Error")) in
  sent w1
  = sent three_done ++ [HttpDelete "/api/todo/1"; HttpDelete "/api/todo/3";
                        HttpDelete "/api/todo/4"] ∧
  (∃ wk, run w1 [Settle 3 ok; Settle 1 ok] = Some wk ∧
         sent wk = sent w1 ∧ this wk = this w1) ∧
  (∃ w2, run w1 [Settle 3 ok; Settle 1 ok; Settle 2 ko] = Some w2 ∧
         sent w2 = sent w1 ++ [HttpGet "/api/todo" (mkFilter "" "DueDate" false)] ∧
         loading (this w2) = true).
Proof.
  intros w1 ok ko.
  assert (Hdone : done_items three_done ≠ []) by (vm_compute; discriminate).
  destruct (removeCompleted_spec three_done (page_reachable _) Hdone)
    as (_ & (Hthis & Hsent & _ & _) & Hsched & _).
  destruct (Hsched [(3%nat, Resolved (mkResponse "" 204 "No Content"));
                    (1%nat, Resolved (mkResponse "" 204 "No Content"));
                    (2%nat, Rejected (mkResponse "" 500 "Server Error"))])
    as [Hpre (w2 & Hrun & Hs2 & Ht2 & _)].
  { simpl. etrans; [apply perm_swap|]. apply perm_skip, perm_swap. }
  split; [exact Hsent|]. split.
  - destruct (Hpre 2%nat) as (wk & Hk & Hks & Hkt & _); [simpl; lia|].
    exists wk. split; [exact Hk|]. split; [exact Hks | exact Hkt].
  - exists w2. split; [exact Hrun|]. split; [exact Hs2|].
    fold w1 in Ht2. rewrite Ht2. fold w1 in Hthis. rewrite Hthis. reflexivity.
Defined.

(** Where no item is done the claim asks for the refresh in the call, and a
    call that ended with one would meet it. *)
Lemma refresh_in_the_call_meets_the_claim :
  refreshes_once_after none_done (refresh (removeCompleted true none_done)).
Proof.
  split; [by vm_compute|].
  intros sched Hperm. simpl in Hperm.
  apply Permutation_nil_r in Hperm. apply fmap_nil_inv in Hperm as ->.
  split; [intros k Hk; simpl in Hk; lia|].
  eexists. split; [reflexivity|]. by vm_compute.
Qed.

(** C1 as stated fails where no item is done.  On the page whose one item
    is not done a confirmed [removeCompleted()] sends nothing and leaves no
    request in flight: the call has triggered no refresh and no answer can
    come to trigger one, where the claim has exactly one. *)
Lemma removeCompleted_none_done_never_refreshes :
  let w1 := removeCompleted true none_done in
  reachable none_done ∧
  done_items none_done = [] ∧
  sent w1 = sent none_done ∧
  in_flight w1 = ∅ ∧
  (∀ id o, step w1 (Settle id o) = None) ∧
  list_requests (sent w1) = list_requests (sent none_done) ∧
  ¬ removeCompleted_claim none_done.
Proof.
  intros w1. split; [apply page_reachable|].
  assert (Hsent : sent w1 = sent none_done) by (by vm_compute).
  assert (Hfl : in_flight w1 = ∅) by (by vm_compute).
  do 3 (split; [done|]). split; [|split; [by rewrite Hsent|]].
  - intros id o. simpl. by rewrite Hfl, lookup_empty.
  - intros [_ H]. destruct (H []) as [_ (w2 & Hrun & Hgets)]; [done|].
    injection Hrun as <-. fold w1 in Hgets. rewrite Hsent in Hgets.
    apply (f_equal length) in Hgets. rewrite length_app in Hgets.
    simpl in Hgets. lia.
Qed.

(** *** No item done *)

Lemma forEach_none_done (count : nat) (l : list ITodoItem) (w : World) :
  (∀ item, In item l → IsDone item = false) →
  forEach l (loop_body count) w = w.
Proof.
  revert w. induction l as [|item l IH]; intros w Hl; [done|].
  unfold forEach in *; simpl. rewrite (Hl item) by (by left).
  apply IH. intros i Hi. apply Hl. by right.
Qed.

Lemma none_done_items (w : World) :
  (∀ item, In item (items (this w)) → IsDone item = false) →
  done_items w = [].
Proof.
  unfold done_items. induction (items (this w)) as [|item l IH]; [done|].
  intros Hl. simpl. rewrite (Hl item) by (by left).
  apply IH. intros i Hi. apply Hl. by right.
Qed.

(** C3. A confirmed [removeCompleted()] when no item of the collection is
    done sets [loading], sends no request and attaches no handler: the
    world is the one [this.loading = true] alone would leave, but for a
    [count] variable nothing refers to.  Nothing of this call is left to
    run: on a page the event loop can reach no handler in flight ever
    captures that variable, so the call never refreshes and never clears
    [loading]; and when no request was in flight before the call, no answer
    can arrive at all. *)
Theorem removeCompleted_none_done_spec (w : World) :
  (∀ item, In item (items (this w)) → IsDone item = false) →
  let w1 := removeCompleted true w in
  loading (this w1) = true ∧
  items (this w1) = items (this w) ∧
  filter (this w1) = filter (this w) ∧
  sent w1 = sent w ∧
  in_flight w1 = in_flight w ∧
  next_request w1 = next_request w ∧
  alerts w1 = alerts w ∧
  w1 = (new_var 0 (set_loading true w)).2 ∧
  (reachable w → ∀ es w2, run w1 es = Some w2 → ∀ id req,
     in_flight w2 !! id
     ≠ Some (req, checkCount_handlers (length (count_vars w)))) ∧
  (in_flight w = ∅ → ∀ id o, step w1 (Settle id o) = None).
Proof.
  intros Hnone w1.
  assert (Hw1 : w1 = (new_var 0 (set_loading true w)).2).
  { subst w1. unfold removeCompleted; simpl. by rewrite forEach_none_done. }
  do 8 (split; [by rewrite Hw1|]). split.
  - intros Hwf%wf_reachable es w2 Hrun id req He.
    apply (checkCount_owned w es w2 Hwf Hrun) in He.
    rewrite none_done_items in He by done. by apply elem_of_nil in He.
  - rewrite Hw1. intros Hempty id o. simpl. by rewrite Hempty, lookup_empty.
Qed.

Lemma removeCompleted_none_done_page :
  let w1 := removeCompleted true none_done in
  loading (this w1) = true ∧ sent w1 = sent none_done ∧ in_flight w1 = ∅ ∧
  ∀ id o, step w1 (Settle id o) = None.
Proof.
  intros w1.
  assert (Hnone : ∀ item, In item (items (this none_done)) → IsDone item = false).
  { intros item [<- | []]. reflexivity. }
  destruct (removeCompleted_none_done_spec none_done Hnone)
    as (Hl & _ & _ & Hs & Hf & _ & _ & _ & _ & Hq).
  split; [exact Hl|]. split; [exact Hs|]. split; [exact Hf|].
  apply Hq. reflexivity.
Defined.

(** * Further properties *)

(** ** What one turn does to the controller *)

Lemma checkCount_effects count w :
  filter (this (checkCount count w)) = filter (this w) ∧
  items (this (checkCount count w)) = items (this w) ∧
  alerts (checkCount count w) = alerts w ∧
  (sent (checkCount count w) = sent w ∧
   loading (this (checkCount count w)) = loading (this w) ∨
   sent (checkCount count w)
   = sent w ++ [HttpGet "/api/todo" (filter (this w))] ∧
   loading (this (checkCount count w)) = true).
Proof.
  unfold checkCount. destruct (_ =? 0); simpl; repeat split; auto.
Qed.

Lemma removeCompleted_effects confirm w :
  filter (this (removeCompleted confirm w)) = filter (this w) ∧
  items (this (removeCompleted confirm w)) = items (this w) ∧
  alerts (removeCompleted confirm w) = alerts w ∧
  ∃ dels, sent (removeCompleted confirm w)
          = sent w ++ (deleteItem_request <$> dels).
Proof.
  destruct confirm.
  - destruct (removeCompleted_confirmed w) as (Hthis & Hal & Hsent & _).
    rewrite Hthis, Hal, Hsent. repeat split. by eexists.
  - repeat split. exists []. simpl. by rewrite app_nil_r.
Qed.

(** The collection after one event. *)
Lemma step_items w e w' :
  step w e = Some w' → items (this w') = listed (items (this w)) [e].
Proof.
  intros Hstep. destruct e as [id o | value | item | name | confirm];
    simpl in Hstep.
  - destruct (in_flight w !! id) as [[req h]|]; [|done].
    destruct req, h, o; try done; injection Hstep as <-.
    + by destruct r.
    + by destruct r.
    + rewrite deleteItem_settled_runs_checkCount.
      by destruct (checkCount_effects count (answered id w)) as (_ & -> & _).
  - by injection Hstep as <-.
  - by injection Hstep as <-.
  - injection Hstep as <-. unfold changeColumn.
    by destruct (String.eqb _ _).
  - injection Hstep as <-.
    by destruct (removeCompleted_effects confirm w) as (_ & -> & _).
Qed.

(** The alerts after one event. *)
Lemma step_alerts w e w' :
  step w e = Some w' → alerts w' = alerts w ++ failures [e].
Proof.
  intros Hstep. destruct e as [id o | value | item | name | confirm];
    simpl in Hstep.
  - destruct (in_flight w !! id) as [[req h]|]; [|done].
    destruct req, h, o; try done; injection Hstep as <-.
    + destruct r; simpl; [by rewrite app_nil_r | done].
    + destruct r; simpl; [by rewrite app_nil_r | done].
    + rewrite deleteItem_settled_runs_checkCount.
      destruct (checkCount_effects count (answered id w)) as (_ & _ & -> & _).
      simpl. by rewrite app_nil_r.
  - injection Hstep as <-. simpl. by rewrite app_nil_r.
  - injection Hstep as <-. simpl. by rewrite app_nil_r.
  - injection Hstep as <-. unfold changeColumn.
    destruct (String.eqb _ _); simpl; by rewrite app_nil_r.
  - injection Hstep as <-.
    destruct (removeCompleted_effects confirm w) as (_ & _ & -> & _).
    simpl. by rewrite app_nil_r.
Qed.

Lemma listed_cons l e es : listed l (e :: es) = listed (listed l [e]) es.
Proof. destruct e as [id [[r|err]|r|r] | | | |]; done. Qed.

Lemma failures_cons e es : failures (e :: es) = failures [e] ++ failures es.
Proof. destruct e as [id [[r|err]|[r|err]|r] | | | |]; done. Qed.

(** X3. Along any run the collection shown is the body of the last list
    answer that succeeded, verbatim, or what it was when none did: answers
    to saves and deletes, failures and the actions of the user never touch
    it. *)
Theorem items_are_last_list_answer (es : list Event) : ∀ w w',
  run w es = Some w' → items (this w') = listed (items (this w)) es.
Proof.
  induction es as [|e es IH]; intros w w' Hrun; simpl in Hrun.
  - by injection Hrun as <-.
  - destruct (step w e) as [w1|] eqn:Hstep; [|done].
    rewrite listed_cons, <- (step_items _ _ _ Hstep). by apply IH.
Qed.

(** X5. Along any run the alerts shown are exactly the errors of the list
    and save requests that failed, in the order they arrived: a delete
    that fails alerts nothing, and nothing else ever alerts. *)
Theorem alerts_are_failed_lists_and_saves (es : list Event) : ∀ w w',
  run w es = Some w' → alerts w' = alerts w ++ failures es.
Proof.
  induction es as [|e es IH]; intros w w' Hrun; simpl in Hrun.
  - injection Hrun as <-. simpl. by rewrite app_nil_r.
  - destruct (step w e) as [w1|] eqn:Hstep; [|done].
    rewrite failures_cons, app_assoc, <- (step_alerts _ _ _ Hstep).
    by apply IH.
Qed.

(** X6. The page cannot tell a delete that failed from one that succeeded:
    two runs that differ only in how deletes were answered end in the same
    world. *)
Theorem delete_outcome_is_ignored (es es' : list Event) :
  Forall2 same_but_delete_outcome es es' → ∀ w, run w es = run w es'.
Proof.
  induction 1 as [|e e' es es' He _ IH]; intros w; [done|].
  assert (Hstep : step w e = step w e').
  { destruct He as [-> | (id & r & r' & -> & ->)]; [done|]. simpl.
    destruct (in_flight w !! id) as [[[] []]|]; try done.
    by rewrite !deleteItem_settled_runs_checkCount. }
  simpl. rewrite Hstep. destruct (step w e'); [apply IH | done].
Qed.

(** ** The filter text *)

(** X1. Setting the filter text stores the value, which the getter reads
    back, keeps sort column, direction and items, and triggers exactly one
    refresh: the controller is loading and the one request sent is the list
    request for the new filter. *)
Theorem set_filterText_spec (value : string) (w : World) :
  let f := filter (this w) in
  let w' := set_filterText value w in
  get_filterText w' = value ∧
  filter (this w') = mkFilter value (columnName f) (sortAscending f) ∧
  items (this w') = items (this w) ∧
  loading (this w') = true ∧
  alerts w' = alerts w ∧
  sent w' = sent w ++ [HttpGet "/api/todo" (filter (this w'))] ∧
  in_flight w' !! next_request w
  = Some (HttpGet "/api/todo" (filter (this w')), refresh_handlers).
Proof.
  intros f w'. do 6 (split; [done|]). apply lookup_insert_eq.
Qed.

(** ** [changeColumn] twice *)

Lemma changeColumn_filter (c : string) (w : World) :
  let f := filter (this w) in
  filter (this (changeColumn c w))
  = (if String.eqb (columnName f) c
     then mkFilter (filterText f) (columnName f) (negb (sortAscending f))
     else mkFilter (filterText f) c (sortAscending f)) ∧
  sent (changeColumn c w)
  = sent w ++ [HttpGet "/api/todo" (filter (this (changeColumn c w)))].
Proof. unfold changeColumn. by destruct (String.eqb _ _). Qed.

Lemma changeColumn_frame (c : string) (w : World) :
  items (this (changeColumn c w)) = items (this w) ∧
  loading (this (changeColumn c w)) = true.
Proof. unfold changeColumn. by destruct (String.eqb _ _). Qed.

(** X2. Two calls of [changeColumn(c)] in a row leave the sort column [c]
    and the filter text as it was; the direction is the one before the
    calls when [c] was the sort column already, so that the filter is
    restored, and its opposite otherwise.  Each call triggers its own
    refresh: two list requests are sent, the second for the filter the
    calls leave. *)
Theorem changeColumn_twice (c : string) (w : World) :
  let f := filter (this w) in
  let w1 := changeColumn c w in
  let w2 := changeColumn c w1 in
  filterText (filter (this w2)) = filterText f ∧
  columnName (filter (this w2)) = c ∧
  sortAscending (filter (this w2))
  = (if decide (c = columnName f) then sortAscending f
     else negb (sortAscending f)) ∧
  (c = columnName f → filter (this w2) = f) ∧
  items (this w2) = items (this w) ∧
  loading (this w2) = true ∧
  ∃ f1, sent w2 = sent w ++ [HttpGet "/api/todo" f1;
                             HttpGet "/api/todo" (filter (this w2))].
Proof.
  intros f w1 w2.
  destruct (changeColumn_filter c w) as [Hf1 Hs1].
  destruct (changeColumn_filter c w1) as [Hf2 Hs2].
  cbv zeta in Hf1, Hf2.
  change (changeColumn c w1) with w2 in Hf2, Hs2.
  change (changeColumn c w) with w1 in Hf1, Hs1.
  change (filter (this w)) with f in Hf1.
  assert (Hitems : items (this w2) = items (this w)).
  { subst w2 w1. by rewrite !(proj1 (changeColumn_frame _ _)). }
  assert (Hload : loading (this w2) = true).
  { subst w2. apply changeColumn_frame. }
  rewrite Hs2, Hs1, <- app_assoc, Hitems, Hload.
  clearbody w2. rewrite Hf1 in Hf2. rewrite Hf2, Hf1.
  clearbody w1 f. destruct f as [text col asc]. simpl.
  destruct (String.eqb_spec col c) as [<- | Hne]; simpl.
  - rewrite String.eqb_refl, negb_involutive, decide_True by done. simpl.
    repeat split. by eexists.
  - rewrite String.eqb_refl, decide_False by done. simpl.
    repeat split; [done|]. by eexists.
Qed.

(** ** Overlapping refreshes *)

(** X4. Answers are applied in the order they arrive, not the order of the
    requests.  With two list requests in flight, the first answer to
    arrive clears [loading] while the other request is still in flight,
    and the answer that arrives last gives the collection, whichever
    request it answers and whatever the filter then is. *)
Theorem last_answer_wins (w : World) (id1 id2 : nat) (url1 url2 : string)
    (f1 f2 : ITodoFilter) (result1 result2 : HttpResponse (list ITodoItem)) :
  id1 ≠ id2 →
  in_flight w !! id1 = Some (HttpGet url1 f1, refresh_handlers) →
  in_flight w !! id2 = Some (HttpGet url2 f2, refresh_handlers) →
  ∃ w1 w2,
    step w (Settle id1 (GetOutcome (Resolved result1))) = Some w1 ∧
    loading (this w1) = false ∧
    in_flight w1 !! id2 = Some (HttpGet url2 f2, refresh_handlers) ∧
    step w1 (Settle id2 (GetOutcome (Resolved result2))) = Some w2 ∧
    items (this w2) = data result2 ∧
    filter (this w2) = filter (this w) ∧
    loading (this w2) = false.
Proof.
  intros Hne H1 H2. eexists _, _. split; [by simpl; rewrite H1|].
  split; [done|].
  assert (H2' : in_flight (answered id1 w) !! id2
                = Some (HttpGet url2 f2, refresh_handlers)).
  { simpl. by rewrite lookup_delete_ne. }
  split; [exact H2'|].
  split; [simpl; simpl in H2'; by rewrite H2' | done].
Qed.

(** ** Answers *)

(** X9. An answer from the network never changes the filter and never
    sends a save or a delete.  The answer to a list or save request sends
    nothing and clears [loading]; the answer to a delete sends nothing and
    leaves the controller as it is, or sends the one list request of a
    refresh for the current filter and sets [loading]. *)
Theorem answers_never_resend (w w' : World) (id : nat) (o : HttpOutcome) :
  step w (Settle id o) = Some w' →
  filter (this w') = filter (this w) ∧
  match o with
  | GetOutcome _ | PostOutcome _ =>
      sent w' = sent w ∧ loading (this w') = false
  | DeleteOutcome _ =>
      (sent w' = sent w ∧ this w' = this w) ∨
      (sent w' = sent w ++ [HttpGet "/api/todo" (filter (this w))] ∧
       this w' = this (set_loading true w))
  end.
Proof.
  intros Hstep. simpl in Hstep.
  destruct (in_flight w !! id) as [[req h]|]; [|done].
  destruct req, h, o; try done; injection Hstep as <-.
  - by destruct r.
  - by destruct r.
  - rewrite deleteItem_settled_runs_checkCount. unfold checkCount.
    destruct (_ =? 0); simpl; split; auto.
Qed.

(** ** The counters *)

(** X7. On every page the event loop can reach, the [count] variable of
    each call of [removeCompleted] holds the number of requests in flight
    that wait on it: it is never negative, and it is zero exactly when no
    request in flight waits on it.  Those requests are deletes. *)
Theorem count_is_deletes_in_flight (w : World) :
  reachable w →
  ∀ count v, count_vars w !! count = Some v →
    v = Z.of_nat (size (waiting count w)) ∧
    0 ≤ v ∧
    (v = 0 ↔ ∀ id req,
        in_flight w !! id ≠ Some (req, checkCount_handlers count)) ∧
    (∀ id req, in_flight w !! id = Some (req, checkCount_handlers count) →
       ∃ url, req = HttpDelete url).
Proof.
  intros Hwf%wf_reachable count v Hv.
  assert (Hc : (count < length (count_vars w))%nat) by (by eapply lookup_lt_Some).
  rewrite (wf_count _ Hwf count Hc) in Hv. injection Hv as <-.
  split; [done|]. split; [lia|]. split.
  - split.
    + intros Hz id req He.
      assert (Hsz : size (waiting count w) = 0%nat) by lia.
      apply map_size_empty_iff in Hsz.
      assert (Hw : waiting count w !! id
                   = Some (req, checkCount_handlers count)).
      { by apply map_lookup_filter_Some_2. }
      rewrite Hsz in Hw. by rewrite lookup_empty in Hw.
    + intros Hnone.
      assert (Hsz : size (waiting count w) = 0%nat); [|lia].
      apply map_size_empty_iff, map_empty. intros id.
      apply map_lookup_filter_None_2. right.
      intros [req h] He Hh. simpl in Hh. subst h. by apply (Hnone id req).
  - intros id req He. by apply (wf_handlers _ Hwf) in He as [_ Hurl].
Qed.

(** ** The list requests *)

Lemma last_get_snoc log req :
  last_get (log ++ [req])
  = match req with HttpGet _ _ => Some req | _ => last_get log end.
Proof. unfold last_get. by rewrite fold_left_app. Qed.

Lemma last_get_deletes log (dels : list ITodoItem) :
  last_get (log ++ (deleteItem_request <$> dels)) = last_get log.
Proof.
  induction dels as [|item dels IH] using rev_ind; simpl.
  - by rewrite app_nil_r.
  - rewrite fmap_app, app_assoc.
    change (deleteItem_request <$> [item]) with [deleteItem_request item].
    by rewrite last_get_snoc.
Qed.

Lemma last_get_refresh w :
  last_get (sent (refresh w))
  = Some (HttpGet "/api/todo" (filter (this (refresh w)))).
Proof. unfold refresh; simpl. by rewrite last_get_snoc. Qed.

Lemma last_get_step w e w' :
  step w e = Some w' →
  last_get (sent w) = Some (HttpGet "/api/todo" (filter (this w))) →
  last_get (sent w') = Some (HttpGet "/api/todo" (filter (this w'))).
Proof.
  intros Hstep Hw. destruct e as [id o | value | item | name | confirm];
    simpl in Hstep.
  - destruct (in_flight w !! id) as [[req h]|]; [|done].
    destruct req, h, o; try done; injection Hstep as <-.
    + by destruct r.
    + by destruct r.
    + rewrite deleteItem_settled_runs_checkCount. unfold checkCount.
      destruct (_ =? 0); [apply last_get_refresh | done].
  - injection Hstep as <-. apply last_get_refresh.
  - injection Hstep as <-. unfold update; simpl. by rewrite last_get_snoc.
  - injection Hstep as <-. apply last_get_refresh.
  - injection Hstep as <-.
    destruct (removeCompleted_effects confirm w) as (-> & _ & _ & dels & ->).
    by rewrite last_get_deletes.
Qed.

(** X8. On every page the event loop can reach, the list request sent last
    carries the filter the controller holds: every change of the filter is
    followed by a refresh in the same turn, and nothing else changes the
    filter. *)
Theorem last_list_request_carries_filter (w : World) :
  reachable w →
  last_get (sent w) = Some (HttpGet "/api/todo" (filter (this w))).
Proof.
  intros [es Hrun].
  assert (Hc : last_get (sent constructor)
               = Some (HttpGet "/api/todo" (filter (this constructor))))
    by done.
  revert Hrun Hc. generalize constructor. revert w.
  induction es as [|e es IH]; intros w w0 Hrun Hc; simpl in Hrun.
  - by injection Hrun as <-.
  - destruct (step w0 e) as [w1|] eqn:Hstep; [|done].
    eapply IH; [done|]. by eapply last_get_step.
Qed.

(** ** [removeCompleted] twice *)

(** X10. A second confirmed [removeCompleted()] before any answer sends
    every delete again: the collection has not changed, each done item has
    two deletes in flight, and each call counts its own deletes in its own
    variable. *)
Theorem removeCompleted_twice (w : World) :
  let w1 := removeCompleted true w in
  let w2 := removeCompleted true w1 in
  let dels := done_items w in
  let n := length dels in
  let count := length (count_vars w) in
  items (this w2) = items (this w) ∧
  sent w2 = sent w ++ (deleteItem_request <$> dels)
                   ++ (deleteItem_request <$> dels) ∧
  count_vars w2 = count_vars w ++ [Z.of_nat n; Z.of_nat n] ∧
  ∀ i item, dels !! i = Some item →
    in_flight w2 !! (next_request w + i)%nat
    = Some (deleteItem_request item, checkCount_handlers count) ∧
    in_flight w2 !! (next_request w + n + i)%nat
    = Some (deleteItem_request item, checkCount_handlers (S count)).
Proof.
  intros w1 w2 dels n count.
  destruct (removeCompleted_confirmed w)
    as (Hthis1 & _ & Hsent1 & Hnext1 & Hvars1 & Hin1 & _).
  destruct (removeCompleted_confirmed w1)
    as (Hthis2 & _ & Hsent2 & Hnext2 & Hvars2 & Hin2 & Hold2).
  fold w1 in Hthis1, Hsent1, Hnext1, Hvars1, Hin1.
  fold w1 w2 in Hthis2, Hsent2, Hnext2, Hvars2, Hin2, Hold2.
  assert (Hdone : done_items w1 = dels).
  { unfold done_items. by rewrite Hthis1. }
  rewrite Hdone in *. fold dels n count in Hsent1, Hnext1, Hvars1, Hin1.
  fold n in Hvars2.
  split; [by rewrite Hthis2; simpl; rewrite Hthis1|].
  split; [by rewrite Hsent2, Hsent1, <- app_assoc|].
  split; [by rewrite Hvars2, Hvars1, <- app_assoc|].
  intros i item Hi. split.
  - rewrite Hold2; [by apply Hin1|].
    apply lookup_lt_Some in Hi. rewrite Hnext1. fold n in Hi |- *. lia.
  - specialize (Hin2 i item Hi). rewrite Hnext1, Hvars1 in Hin2.
    rewrite length_app in Hin2. simpl in Hin2.
    by replace (length (count_vars w) + 1)%nat with (S count) in Hin2 by lia.
Qed.

(** ** The column headers *)

Lemma append_empty_r (s : string) : s +:+ "" = s.
Proof.
  induction s as [|a s IH]; [done|].
  change (String a (s +:+ "") = String a s). by rewrite IH.
Qed.

(** X11. Among the headers bound to one filter, the header of the sort
    column shows one arrow, up when ascending and down when descending,
    after its label; the header of any other column shows its label
    alone.  The label is the description, or the column name when the
    description is absent or empty. *)
Theorem header_shows_the_sort (f : ITodoFilter)
    (scope : ColumnToggle.IToggleColumn) :
  bound_to f scope →
  (ColumnToggle.columnName scope = columnName f →
     ColumnToggle.template scope
     = ColumnToggle.label scope
       +:+ (if sortAscending f then " ^" else " v")) ∧
  (ColumnToggle.columnName scope ≠ columnName f →
     ColumnToggle.template scope = ColumnToggle.label scope) ∧
  (ColumnToggle.label scope
   = match ColumnToggle.columnDescription scope with
     | Some d => if decide (d = "") then ColumnToggle.columnName scope else d
     | None => ColumnToggle.columnName scope
     end).
Proof.
  intros [Hcur Hasc]. unfold ColumnToggle.template, ColumnToggle.indicator.
  rewrite Hcur, Hasc. repeat split.
  - intros ->. rewrite String.eqb_refl. by destruct (sortAscending f).
  - intros Hne. destruct (String.eqb_spec (columnName f)
                            (ColumnToggle.columnName scope)); [done|].
    apply append_empty_r.
  - unfold ColumnToggle.label, ColumnToggle.or_else.
    destruct (ColumnToggle.columnDescription scope) as [d|]; [|done].
    destruct (String.eqb_spec d ""); by case_decide.
Qed.

(** X12. A click on a header whose [changeColumn] attribute calls the
    [changeColumn] of the controller with [colName]: once the header reads
    the new filter it is the active one.  If it was active its arrow has
    turned; if it was not, it shows the direction the filter already had.
    The click triggers one refresh. *)
Theorem click_on_header (w : World) (scope : ColumnToggle.IToggleColumn) :
  bound_to (filter (this w)) scope →
  let page_changeColumn :=
    fun locals => changeColumn (ColumnToggle.colName locals) in
  let w' := ColumnToggle.toggle page_changeColumn scope w in
  let scope' := rebind (filter (this w')) scope in
  bound_to (filter (this w')) scope' ∧
  ColumnToggle.indicator scope' ≠ "" ∧
  (ColumnToggle.indicator scope ≠ "" →
     ColumnToggle.indicator scope' ≠ ColumnToggle.indicator scope) ∧
  (ColumnToggle.indicator scope = "" →
     ColumnToggle.indicator scope'
     = if sortAscending (filter (this w)) then " ^" else " v") ∧
  ColumnToggle.label scope' = ColumnToggle.label scope ∧
  sent w' = sent w ++ [HttpGet "/api/todo" (filter (this w'))].
Proof.
  intros [Hcur Hasc] cb w' scope'.
  destruct (changeColumn_filter (ColumnToggle.columnName scope) w)
    as [Hf Hs].
  change (changeColumn (ColumnToggle.columnName scope) w) with w' in Hf, Hs.
  cbv zeta in Hf. clearbody w'. subst scope' cb.
  split; [done|].
  unfold ColumnToggle.indicator, ColumnToggle.label, rebind; simpl.
  rewrite Hs, Hcur, Hasc, Hf. clear Hf Hs.
  destruct (filter (this w)) as [text col asc]; simpl.
  destruct (String.eqb_spec col (ColumnToggle.columnName scope))
    as [<- | Hne]; simpl.
  - rewrite String.eqb_refl. by destruct asc.
  - rewrite String.eqb_refl. by destruct asc.
Qed.

(** ** The properties on concrete pages *)

Lemma busy_page_reached : run constructor busy_run = Some busy_page.
Proof. vm_compute. reflexivity. Qed.

(** After [busy_run] the collection is still the first answer. *)
Lemma items_of_busy_page :
  items (this busy_page)
  = [mkItem 1 true "a" "2020-01-01"; mkItem 2 false "b" "2020-01-02"].
Proof.
  rewrite (items_are_last_list_answer busy_run constructor busy_page
             busy_page_reached).
  reflexivity.
Defined.

(** After [busy_run] two alerts were shown, for the save and for the list
    request; the delete that failed showed none. *)
Lemma alerts_of_busy_page :
  alerts busy_page = [mkResponse "" 500 "Server Error";
                      mkResponse "" 503 "Unavailable"].
Proof.
  rewrite (alerts_are_failed_lists_and_saves busy_run constructor busy_page
             busy_page_reached).
  reflexivity.
Defined.

(** [busy_run] with its delete answered by a success ends on the same
    page. *)
Lemma busy_run_delete_succeeds :
  run constructor busy_run
  = run constructor
      [Settle 0 (GetOutcome (Resolved (mkResponse
         [mkItem 1 true "a" "2020-01-01"; mkItem 2 false "b" "2020-01-02"]
         200 "OK")));
       Update (mkItem 2 true "b" "2020-01-02");
       Settle 1 (PostOutcome (Rejected (mkResponse "" 500 "Server Error")));
       RemoveCompleted true;
       Settle 2 (DeleteOutcome (Resolved (mkResponse "" 204 "No Content")));
       Settle 3 (GetOutcome (Rejected (mkResponse "" 503 "Unavailable")))].
Proof.
  apply delete_outcome_is_ignored. unfold busy_run.
  repeat (constructor; [first [by left | right; by eexists _, _, _]|]).
  constructor.
Defined.

(** The text typed is ab; the answer for a arrives last and is what the
    page shows. *)
Lemma stale_answer_is_shown :
  let for_a := mkResponse [mkItem 7 false "a" "2020-01-01"] 200 "OK" in
  let for_ab := mkResponse [mkItem 8 false "ab" "2020-01-02"] 200 "OK" in
  ∃ w2, run typed_twice [Settle 2 (GetOutcome (Resolved for_ab));
                         Settle 1 (GetOutcome (Resolved for_a))] = Some w2 ∧
        get_filterText w2 = "ab" ∧
        items (this w2) = [mkItem 7 false "a" "2020-01-01"].
Proof.
  intros for_a for_ab.
  destruct (last_answer_wins typed_twice 2 1
              "/api/todo" "/api/todo"
              (mkFilter "ab" "DueDate" false) (mkFilter "a" "DueDate" false)
              for_ab for_a)
    as (w1 & w2 & Hs1 & _ & _ & Hs2 & Hitems & Hfilter & _).
  - lia.
  - vm_compute. reflexivity.
  - vm_compute. reflexivity.
  - exists w2. split; [|split].
    + rewrite (run_cons _ _ _ _ Hs1), (run_cons _ _ _ _ Hs2). reflexivity.
    + unfold get_filterText. rewrite Hfilter. vm_compute. reflexivity.
    + exact Hitems.
Defined.

(** Three deletes in flight: the variable of the call holds 3. *)
Lemma count_of_three_done :
  let w := removeCompleted true three_done in
  3 = Z.of_nat (size (waiting 0 w)) ∧
  0 ≤ 3 ∧
  (3 = 0 ↔ ∀ id req, in_flight w !! id ≠ Some (req, checkCount_handlers 0)) ∧
  (∀ id req, in_flight w !! id = Some (req, checkCount_handlers 0) →
     ∃ url, req = HttpDelete url).
Proof.
  intros w. apply (count_is_deletes_in_flight w).
  - exists [Settle 0 (GetOutcome (Resolved (mkResponse
              (items (this three_done)) 200 "OK")));
            RemoveCompleted true].
    vm_compute. reflexivity.
  - vm_compute. reflexivity.
Defined.

(** The refresh that followed the delete of [busy_run] asked for the filter
    the page still holds. *)
Lemma last_list_request_of_busy_page :
  last_get (sent busy_page)
  = Some (HttpGet "/api/todo" (mkFilter "" "DueDate" false)).
Proof.
  rewrite (last_list_request_carries_filter busy_page).
  - vm_compute. reflexivity.
  - exists busy_run. exact busy_page_reached.
Defined.

(** The answer to the first of three deletes sends nothing. *)
Lemma first_delete_answer_sends_nothing :
  let w := removeCompleted true three_done in
  let w' := default w (step w (Settle 1 (DeleteOutcome
                         (Rejected (mkResponse "" 404 "Not Found"))))) in
  filter (this w') = filter (this w) ∧
  ((sent w' = sent w ∧ this w' = this w) ∨
   (sent w' = sent w ++ [HttpGet "/api/todo" (filter (this w))] ∧
    this w' = this (set_loading true w))).
Proof.
  intros w w'.
  apply (answers_never_resend w w' 1
           (DeleteOutcome (Rejected (mkResponse "" 404 "Not Found")))).
  vm_compute. reflexivity.
Defined.

(** On the first page the header of the due date reads Due with the arrow
    down and the header of the description reads its column name. *)
Lemma headers_of_first_page :
  ColumnToggle.template due_header = "Due v" ∧
  ColumnToggle.template description_header = "Description".
Proof.
  destruct (header_shows_the_sort (mkFilter "" "DueDate" false) due_header)
    as (Hactive & _ & Hlabel); [split; reflexivity|].
  destruct (header_shows_the_sort (mkFilter "" "DueDate" false)
              description_header)
    as (_ & Hother & Hlabel'); [split; reflexivity|].
  split.
  - rewrite Hactive by reflexivity. rewrite Hlabel. reflexivity.
  - rewrite Hother by discriminate. rewrite Hlabel'. reflexivity.
Defined.

(** A click on the header of the description makes it the sort column,
    descending as the filter was. *)
Lemma click_on_description :
  let w' := ColumnToggle.toggle
              (fun locals => changeColumn (ColumnToggle.colName locals))
              description_header none_done in
  filter (this w') = mkFilter "" "Description" false ∧
  ColumnToggle.template (rebind (filter (this w')) description_header)
  = "Description v".
Proof.
  cbv zeta.
  destruct (click_on_header none_done description_header)
    as (_ & _ & _ & Hind & Hlabel & _); [split; reflexivity|].
  cbv zeta in Hind, Hlabel.
  split; [vm_compute; reflexivity|].
  unfold ColumnToggle.template.
  rewrite Hlabel, Hind by reflexivity. reflexivity.
Defined.
